(** * Wisata Magelang: recommendation and keyword search (app.py)

    A shallow embedding of the two read pipelines of [app.py]:
    [recommend_places] (top-N unseen places by predicted rating) and
    [search_place] (keyword match, relevance score, ranking), together with
    the average-rating line the page prints for every search hit.

    Conventions of the embedding.
    - A data frame is the list of its rows, in index order; a row is a record
      with one field per column that the code reads.
    - Text is ASCII: a Python [str] is a [string] of 8-bit characters and only
      the letters A-Z have a lower-case form.
    - Identifiers and integer cells are [Z]; estimated ratings and means are
      rationals ([Q]); a NaN is the absent value [None].
    - A Python exception is the absent result [None] of an [option].
    - The tables are those [read_csv] builds: a text cell is a Python [str],
      a missing cell is NaN, and a column of a table with rows in which every
      cell is missing has dtype float64 and not object. *)

From Stdlib Require Import List ZArith QArith Bool Ascii String Lia.
From Stdlib Require Import Permutation Sorted.
Import ListNotations.

Close Scope Q_scope.
Open Scope nat_scope.

(** ** Python strings *)

Module Text.

Definition is_upper (c : ascii) : bool :=
  (65 <=? nat_of_ascii c)%nat && (nat_of_ascii c <=? 90)%nat.

Definition is_digit (c : ascii) : bool :=
  (48 <=? nat_of_ascii c)%nat && (nat_of_ascii c <=? 57)%nat.

Definition is_alpha (c : ascii) : bool :=
  is_upper c || ((97 <=? nat_of_ascii c)%nat && (nat_of_ascii c <=? 122)%nat).

Definition lower_char (c : ascii) : ascii :=
  if is_upper c then ascii_of_nat (nat_of_ascii c + 32) else c.

(** [str.lower()] *)
Fixpoint lower (s : string) : string :=
  match s with
  | EmptyString => EmptyString
  | String c r => String (lower_char c) (lower r)
  end.

(** [s.startswith(sub)] *)
Fixpoint startswith (s sub : string) {struct sub} : bool :=
  match sub, s with
  | EmptyString, _ => true
  | String _ _, EmptyString => false
  | String a sub', String b s' => Ascii.eqb a b && startswith s' sub'
  end.

(** The scan of [str.count] for a non-empty [sub]: occurrences are counted
    from left to right and do not overlap; [skip] is the number of characters
    still covered by the occurrence counted last. *)
Fixpoint count_from (skip : nat) (s sub : string) : nat :=
  match s with
  | EmptyString => 0
  | String _ r =>
      match skip with
      | S k => count_from k r sub
      | O =>
          if startswith s sub
          then S (count_from (String.length sub - 1) r sub)
          else count_from 0 r sub
      end
  end.

(** [s.count(sub)]; the empty [sub] occurs between all characters. *)
Definition count (s sub : string) : nat :=
  match sub with
  | EmptyString => S (String.length s)
  | String _ _ => count_from 0 s sub
  end.

(** [sub in s] *)
Fixpoint contains (s sub : string) : bool :=
  startswith s sub ||
  match s with
  | EmptyString => false
  | String _ r => contains r sub
  end.

End Text.

(** ** The regular expressions of [re], as far as modelled

    [Series.str.contains(pat, case=False, na=False)] compiles [pat] with
    [re.IGNORECASE] and keeps the cells where [re.search] finds a match.  The
    fragment modelled here is the patterns that are a sequence of ordinary
    characters, [.], [\d], [\D] and escaped punctuation.  [compile] answers
    [None] on every other pattern (a quantifier, a group, a set, an anchor,
    an alternation, another escape, or a pattern that [re] rejects). *)

Module Re.

Inductive atom : Type :=
| Lit (c : ascii)      (* this character, in either case *)
| AnyChar              (* [.]: any character but a newline *)
| Digit                (* [\d] *)
| NonDigit.            (* [\D] *)

Definition metachars : list ascii :=
  list_ascii_of_string ".^$*+?{}[]\|()".

Definition is_meta (c : ascii) : bool :=
  existsb (Ascii.eqb c) metachars.

Definition escape (e : ascii) : option atom :=
  if Ascii.eqb e "d" then Some Digit
  else if Ascii.eqb e "D" then Some NonDigit
  else if Text.is_alpha e || Text.is_digit e then None
  else if (nat_of_ascii e <? 128)%nat then Some (Lit e)
  else None.

Fixpoint compile (pat : string) : option (list atom) :=
  match pat with
  | EmptyString => Some []
  | String c r =>
      if Ascii.eqb c "\" then
        match r with
        | EmptyString => None
        | String e r' =>
            match escape e with
            | Some a => option_map (cons a) (compile r')
            | None => None
            end
        end
      else if Ascii.eqb c "." then option_map (cons AnyChar) (compile r)
      else if is_meta c then None
      else option_map (cons (Lit c)) (compile r)
  end.

Definition atom_match (a : atom) (x : ascii) : bool :=
  match a with
  | Lit c => Ascii.eqb (Text.lower_char c) (Text.lower_char x)
  | AnyChar => negb (Ascii.eqb x "010")
  | Digit => Text.is_digit x
  | NonDigit => negb (Text.is_digit x)
  end.

(** A match of the whole pattern that starts at the head of [s]. *)
Fixpoint match_here (p : list atom) (s : string) : bool :=
  match p, s with
  | [], _ => true
  | _ :: _, EmptyString => false
  | a :: p', String x r => atom_match a x && match_here p' r
  end.

(** [regex.search(s) is not None] *)
Fixpoint search (p : list atom) (s : string) : bool :=
  match_here p s ||
  match s with
  | EmptyString => false
  | String _ r => search p r
  end.

End Re.

(** ** The sort behind [DataFrame.sort_values]

    [sort_values(by=..., ascending=False)] is called without [kind], so pandas
    asks numpy for its default [kind='quicksort'].  [aquicksort] below follows
    numpy's scalar indirect quicksort (npysort/quicksort, [aquicksort_]): an
    introsort over an array [tosort] of row positions that compares the keys
    [v] through it.  Segments longer than 16 are partitioned around a median
    of three, shorter ones are sorted by insertion, and a segment popped with
    an exhausted depth budget is heap-sorted ([aheapsort_]).

    This is the routine numpy runs where it has no vectorised argsort; with
    AVX2 or AVX-512 it dispatches to another routine.  Both put the keys in
    order and neither is stable, so they differ in the order they leave equal
    keys in, and in nothing else.  Below, only the examples that display the
    order of hits with equal scores depend on the routine; every general
    statement about the order of the hits uses that the column is sorted and
    permuted, which holds for either. *)

Module Npy.

Section Indirect.

(** The key column, read only. *)
Variable v : list Z.

Definition key (i : nat) : Z := nth i v 0%Z.

(** [*p] and [*p = x] on the array of positions. *)
Definition get (t : list nat) (p : nat) : nat := nth p t 0%nat.

Fixpoint set (t : list nat) (p : nat) (x : nat) : list nat :=
  match t, p with
  | [], _ => []
  | _ :: r, O => x :: r
  | y :: r, S p' => y :: set r p' x
  end.

(** [INTP_SWAP] of the cells at [p] and [q]. *)
Definition swap (t : list nat) (p q : nat) : list nat :=
  set (set t p (get t q)) q (get t p).

(** [LT(v[a], v[b])] *)
Definition less (a b : nat) : bool := (key a <? key b)%Z.

(** *** Heap sort of the segment of [n] positions that starts at [pl]

    The C code addresses the segment from 1: [a = tosort - 1]. *)

Definition hpos (pl k : nat) : nat := pl + k - 1.

(** The inner loop shared by both phases: [tmp] sinks from slot [i], whose
    larger child is looked up from [j]; it ends with [a[i] = tmp]. *)
Fixpoint sift (fuel : nat) (t : list nat) (pl n tmp i j : nat) : list nat :=
  match fuel with
  | O => set t (hpos pl i) tmp
  | S f =>
      if (j <=? n)%nat then
        let j' :=
          if (j <? n)%nat && less (get t (hpos pl j)) (get t (hpos pl (j + 1)))
          then (j + 1)%nat else j in
        if less tmp (get t (hpos pl j'))
        then sift f (set t (hpos pl i) (get t (hpos pl j'))) pl n tmp j' (j' + j')
        else set t (hpos pl i) tmp
      else set t (hpos pl i) tmp
  end.

(** [for (l = n >> 1; l > 0; --l)] *)
Fixpoint heapify (l : nat) (t : list nat) (pl n : nat) : list nat :=
  match l with
  | O => t
  | S l' => heapify l' (sift n t pl n (get t (hpos pl l)) l (l + l)) pl n
  end.

(** [for (; n > 1;)] *)
Fixpoint extract (n : nat) (t : list nat) (pl : nat) : list nat :=
  match n with
  | O => t
  | S n' =>
      match n' with
      | O => t
      | S _ =>
          let tmp := get t (hpos pl n) in
          let t1 := set t (hpos pl n) (get t (hpos pl 1)) in
          extract n' (sift n' t1 pl n' tmp 1 2) pl
      end
  end.

Definition aheapsort (t : list nat) (pl n : nat) : list nat :=
  extract n (heapify (n / 2) t pl n) pl.

(** *** Insertion sort of the segment [pl..pr] *)

(** [while (pj > pl && LT(vp, v[*pk])) { *pj-- = *pk--; }  *pj = vi;] *)
Fixpoint shift (fuel : nat) (t : list nat) (pl vi pj : nat) : list nat :=
  match fuel with
  | O => set t pj vi
  | S f =>
      if (pl <? pj)%nat && less vi (get t (pj - 1))
      then shift f (set t pj (get t (pj - 1))) pl vi (pj - 1)
      else set t pj vi
  end.

(** [k] rounds of [for (pi = ...; pi <= pr; ++pi)], the next one at [pi]. *)
Fixpoint insertion_from (k : nat) (t : list nat) (pl pi : nat) : list nat :=
  match k with
  | O => t
  | S k' => insertion_from k' (shift pi t pl (get t pi) pi) pl (S pi)
  end.

Definition insertion (t : list nat) (pl pr : nat) : list nat :=
  insertion_from (pr - pl) t pl (S pl).

(** *** Partition of the segment [pl..pr] *)

(** [do { ++pi; } while (LT(v[*pi], vp));] after the increment. *)
Fixpoint scan_up (fuel : nat) (t : list nat) (vp : Z) (pi : nat) : nat :=
  match fuel with
  | O => pi
  | S f => if (key (get t pi) <? vp)%Z then scan_up f t vp (S pi) else pi
  end.

(** [do { --pj; } while (LT(vp, v[*pj]));] after the decrement. *)
Fixpoint scan_down (fuel : nat) (t : list nat) (vp : Z) (pj : nat) : nat :=
  match fuel with
  | O => pj
  | S f => if (vp <? key (get t pj))%Z then scan_down f t vp (pj - 1) else pj
  end.

(** The [for (;;)] loop; it returns the array and the meeting point [pi]. *)
Fixpoint hoare (fuel : nat) (t : list nat) (vp : Z) (pi pj : nat)
  : list nat * nat :=
  match fuel with
  | O => (t, pi)
  | S f =>
      let pi' := scan_up (List.length t) t vp (S pi) in
      let pj' := scan_down (List.length t) t vp (pj - 1) in
      if (pj' <=? pi')%nat then (t, pi')
      else hoare f (swap t pi' pj') vp pi' pj'
  end.

Definition median3 (t : list nat) (pl pm pr : nat) : list nat :=
  let t1 := if less (get t pm) (get t pl) then swap t pm pl else t in
  let t2 := if less (get t1 pr) (get t1 pm) then swap t1 pr pm else t1 in
  if less (get t2 pm) (get t2 pl) then swap t2 pm pl else t2.

Definition partition (t : list nat) (pl pr : nat) : list nat * nat :=
  let pm := (pl + (pr - pl) / 2)%nat in
  let t3 := median3 t pl pm pr in
  let vp := key (get t3 pm) in
  let t4 := swap t3 pm (pr - 1) in
  let '(t5, pi) := hoare (List.length t) t4 vp pl (pr - 1) in
  (swap t5 pi (pr - 1), pi).

(** *** The driver *)

(** A segment is partitioned while [SMALL_QUICKSORT <? pr - pl]: segments of
    17 cells and more are partitioned, shorter ones are sorted by insertion. *)
Definition SMALL_QUICKSORT : nat := 15.

(** Where control is in [while (1)]: at its head, where the depth budget is
    tested, or in the partitioning loop, where it is not. *)
Inductive pc : Type := Head | Partitioning.

(** A stacked segment with the depth budget saved for it. *)
Definition frame : Type := (nat * nat * Z)%type.

Fixpoint run (fuel : nat) (at_ : pc) (t : list nat) (pl pr : nat) (cdepth : Z)
    (stack : list frame) : option (list nat) :=
  match fuel with
  | O => None
  | S f =>
      let stack_pop (t' : list nat) :=
        match stack with
        | [] => Some t'
        | (pl', pr', d) :: rest => run f Head t' pl' pr' d rest
        end in
      match at_ with
      | Head =>
          if (cdepth <? 0)%Z
          then stack_pop (aheapsort t pl (pr - pl + 1))
          else run f Partitioning t pl pr cdepth stack
      | Partitioning =>
          if (SMALL_QUICKSORT <? pr - pl)%nat then
            let '(t', pi) := partition t pl pr in
            let d := (cdepth - 1)%Z in
            if (pi - pl <? pr - pi)%nat
            then run f Partitioning t' pl (pi - 1) d ((S pi, pr, d) :: stack)
            else run f Partitioning t' (S pi) pr d ((pl, pi - 1, d) :: stack)
          else stack_pop (insertion t pl pr)
      end
  end.

(** [npy_get_msb(num) * 2] *)
Definition depth_limit (num : nat) : Z := (2 * Z.of_nat (Nat.log2 num))%Z.

End Indirect.

(** Bookkeeping for the driver: a segment lies inside the array, and the
    passes still due are bounded by three per cell of the open segments. *)
Definition in_range (t : list nat) (s : frame) : Prop :=
  fst (fst s) <= snd (fst s) /\ snd (fst s) < List.length t.

Definition weight (s : frame) : nat := 3 * (snd (fst s) - fst (fst s) + 1).

Definition pending (stack : list frame) : nat :=
  fold_right (fun s acc => weight s + acc) 0 stack.

Definition budget (at_ : pc) (pl pr : nat) (stack : list frame) : nat :=
  weight (pl, pr, 0%Z) + pending stack
  - match at_ with Head => 0 | Partitioning => 1 end.

(** [v.argsort(kind='quicksort')]: the positions [0..n-1] in sorted order.
    Every pass through [run] either splits a segment at a pivot that belongs
    to neither part or retires a segment, so [3 * n + 3] passes are enough
    ([run_enough]). *)
Definition aquicksort (v : list Z) : list nat :=
  let n := List.length v in
  let t := seq 0 n in
  match run v (3 * n + 3) Head t 0 (n - 1) (depth_limit n) [] with
  | Some t' => t'
  | None => t
  end.

End Npy.

(** ** The pandas operations the code calls *)

Module Pandas.

(** [df.iloc[indexer]] *)
Definition take {A : Type} (df : list A) (indexer : list nat) : list A :=
  flat_map (fun i => match nth_error df i with
                     | Some r => [r]
                     | None => []
                     end) indexer.

(** [nargsort(items, kind='quicksort', ascending=False)] on a column without
    missing values: the column and its positions are reversed, sorted in
    ascending order, and the outcome is reversed again. *)
Definition nargsort_desc (items : list Z) : list nat :=
  let idx := seq 0 (List.length items) in
  let non_nans := rev items in
  let non_nan_idx := rev idx in
  let indexer := map (fun p => nth p non_nan_idx 0) (Npy.aquicksort non_nans) in
  rev indexer.

(** [df.sort_values(by=..., ascending=False)] *)
Definition sort_values_desc {A : Type} (by_ : A -> Z) (df : list A) : list A :=
  take df (nargsort_desc (map by_ df)).

Section Rows.

Variable A : Type.
Hypothesis eq_dec : forall x y : A, {x = y} + {x <> y}.

(** [df.drop_duplicates()]: a row equal in every column to an earlier one is
    dropped, the first of them stays. *)
Fixpoint drop_seen (seen df : list A) : list A :=
  match df with
  | [] => []
  | r :: rest =>
      if in_dec eq_dec r seen then drop_seen seen rest
      else r :: drop_seen (r :: seen) rest
  end.

Definition drop_duplicates (df : list A) : list A := drop_seen [] df.

End Rows.

Arguments drop_seen {A} eq_dec seen df.
Arguments drop_duplicates {A} eq_dec df.

(** [Series.mean()] of an integer column; the mean of no value is NaN. *)
Definition mean (xs : list Z) : option Q :=
  match xs with
  | [] => None
  | _ :: _ => Some (Qmake (fold_right Z.add 0%Z xs) (Pos.of_nat (List.length xs)))
  end.

(** [Series.values[0]]; an [IndexError] on an empty selection. *)
Definition values0 {A : Type} (xs : list A) : option A := hd_error xs.

(** The dtype [read_csv] gives a column of text: object when a cell holds
    text or the table has no row, and float64 when the table has rows and
    every cell of the column is missing. *)
Definition object_dtype (column : list (option string)) : bool :=
  match column with
  | [] => true
  | _ :: _ =>
      existsb (fun cell => match cell with Some _ => true | None => false end)
              column
  end.

(** [Series.str]: the accessor is refused with an [AttributeError] on a
    column that does not hold strings. *)
Definition str_accessor (column : list (option string))
  : option (list (option string)) :=
  if object_dtype column then Some column else None.

End Pandas.

(** [l[:stop]] on a Python list: a negative [stop] counts from the end. *)
Definition slice_to {A : Type} (l : list A) (stop : Z) : list A :=
  if (0 <=? stop)%Z then firstn (Z.to_nat stop) l
  else firstn (List.length l - Z.to_nat (- stop)) l.

(** ** The tables *)

(** A row of [Dataset_tourisMagelang.csv]; a missing description is NaN. *)
Module PlaceDf.
Record row : Type := mk {
  Place_Id : Z;
  Place_Name : string;
  Description : option string
}.

Definition eq_dec (x y : row) : {x = y} + {x <> y}.
Proof.
  decide equality.
  - decide equality. apply string_dec.
  - apply string_dec.
  - apply Z.eq_dec.
Defined.
End PlaceDf.

(** A row of [Dataset_Rating_Mgl.csv]. *)
Module RatingDf.
Record row : Type := mk {
  User_Id : Z;
  Place_Id : Z;
  Place_Name : string;
  Place_Rating : Z
}.
End RatingDf.

(** A row of the frame [search_place] returns. *)
Record hit : Type := mk_hit {
  place : PlaceDf.row;
  Relevance : Z
}.

(** An entry of the list [recommend_places] returns:
    [(place, place_name, est_rating)]. *)
Definition prediction : Type := (Z * string * Q)%type.

Definition est_rating (x : prediction) : Q := snd x.

Definition place_of (x : prediction) : Z := fst (fst x).


(** [predictions.sort(key=lambda x: x[2], reverse=True)].  The sort of Python
    lists is stable, also with [reverse=True], which fixes the outcome: the
    entries in non-increasing key order, equal keys in their former order. *)
Fixpoint insert_desc (x : prediction) (l : list prediction) : list prediction :=
  match l with
  | [] => [x]
  | y :: r =>
      if Qle_bool (est_rating y) (est_rating x) then x :: l
      else y :: insert_desc x r
  end.

Definition sort_reverse (l : list prediction) : list prediction :=
  fold_right insert_desc [] l.

(** ** app.py *)

Section App.

Variable rating_df : list RatingDf.row.
Variable place_df : list PlaceDf.row.

(** [model.predict(user_id, place_id).est] of the trained model. *)
Variable model_predict : Z -> Z -> Q.

Definition predict_rating (user_id place_id : Z) : Q :=
  model_predict user_id place_id.

Definition rated_places (user_id : Z) : list Z :=
  map RatingDf.Place_Id
      (filter (fun r => (RatingDf.User_Id r =? user_id)%Z) rating_df).

Definition all_places : list Z := map PlaceDf.Place_Id place_df.

Definition unrated (user_id : Z) : list Z :=
  filter (fun p => negb (existsb (Z.eqb p) (rated_places user_id))) all_places.

(** The [for place in unrated] loop, which stops at the first exception. *)
Fixpoint predict_all (user_id : Z) (todo : list Z) : option (list prediction) :=
  match todo with
  | [] => Some []
  | place :: rest =>
      let est_rating := predict_rating user_id place in
      match Pandas.values0
              (map PlaceDf.Place_Name
                   (filter (fun r => (PlaceDf.Place_Id r =? place)%Z) place_df)) with
      | None => None
      | Some place_name =>
          option_map (cons (place, place_name, est_rating))
                     (predict_all user_id rest)
      end
  end.

Definition recommend_places (user_id : Z) (top_n : Z) : option (list prediction) :=
  match predict_all user_id (unrated user_id) with
  | None => None
  | Some predictions => Some (slice_to (sort_reverse predictions) top_n)
  end.

(** [.contains(keyword, case=False, na=False)] on one cell of a column that
    [.str] accepted, the pattern already compiled; with [na=False] a missing
    cell counts as no match. *)
Definition str_contains (pat : list Re.atom) (cell : option string) : bool :=
  match cell with
  | Some s => Re.search pat s
  | None => false
  end.

Definition relevance_score (keyword_lower : string) (row : PlaceDf.row) : Z :=
  let name_score :=
    Z.of_nat (Text.count (Text.lower (PlaceDf.Place_Name row)) keyword_lower) in
  let desc_score :=
    match PlaceDf.Description row with
    | Some d => Z.of_nat (Text.count (Text.lower d) keyword_lower)
    | None => 0%Z
    end in
  (name_score * 2 + desc_score)%Z.

(** The frame [results] before the scores are added, once both masks
    exist. *)
Definition matched (pat : list Re.atom) : list PlaceDf.row :=
  let name_match :=
    filter (fun r => str_contains pat (Some (PlaceDf.Place_Name r))) place_df in
  let desc_match :=
    filter (fun r => str_contains pat (PlaceDf.Description r)) place_df in
  Pandas.drop_duplicates PlaceDf.eq_dec (name_match ++ desc_match).

(** [None] when the keyword is not a pattern of the modelled fragment, where
    [re.compile] either raises or builds a pattern that is not modelled, and
    when [.str] raises on one of the two columns (lines 75 and 76), which it
    does on the descriptions of a catalog with rows when all are missing. *)
Definition search_place (keyword : string) : option (list hit) :=
  let keyword_lower := Text.lower keyword in
  match Re.compile keyword with
  | None => None
  | Some pat =>
      match Pandas.str_accessor
              (map (fun r => Some (PlaceDf.Place_Name r)) place_df),
            Pandas.str_accessor (map PlaceDf.Description place_df) with
      | Some _, Some _ =>
          let results := matched pat in
          match results with
          | [] => Some []
          | _ :: _ =>
              let scored :=
                map (fun row => mk_hit row (relevance_score keyword_lower row))
                    results in
              Some (Pandas.sort_values_desc Relevance scored)
          end
      | _, _ => None
      end
  end.

(** The mean of the ratings whose place name is [place_name] up to case. *)
Definition avg_rating (place_name : string) : option Q :=
  Pandas.mean
    (map RatingDf.Place_Rating
         (filter (fun r => String.eqb (Text.lower (RatingDf.Place_Name r))
                                      (Text.lower place_name))
                 rating_df)).

(** What the page writes under a hit: the mean when it is a number
    ([if not np.isnan(avg_rating)]), or that there is no rating yet. *)
Inductive rating_line : Type :=
| RataRataRating (q : Q)
| BelumAdaRating.

Definition write_rating (place_name : string) : rating_line :=
  match avg_rating place_name with
  | Some q => RataRataRating q
  | None => BelumAdaRating
  end.



End App.

(** ** The rest of app.py: loading, highlighting, reviews, the page *)

(** A row of [Dataset_usermgl.csv]. *)
Module UserDf.
Record row : Type := mk {
  User_Id : Z;
  Gender : string;
  Age : Z;
  Regional : string
}.
End UserDf.

(** What is on disk beside the script: every file is either absent, and
    reading it raises [FileNotFoundError], or holds a table or the model. *)
Record disk : Type := mk_disk {
  Dataset_Rating_Mgl_csv : option (list RatingDf.row);
  Dataset_tourisMagelang_csv : option (list PlaceDf.row);
  Dataset_usermgl_csv : option (list UserDf.row);
  mf_model_pkl : option (Z -> Z -> Q)
}.

(** The two [st.error] banners. *)
Inductive banner : Type :=
| FileDatasetTidakDitemukan
| FileModelTidakDitemukan.

(** The three reads share one [try]; the first missing file ends it. *)
Definition load_data (d : disk)
  : list banner
    * (option (list RatingDf.row) * option (list PlaceDf.row)
       * option (list UserDf.row)) :=
  match Dataset_Rating_Mgl_csv d with
  | None => ([FileDatasetTidakDitemukan], (None, None, None))
  | Some rating_df =>
      match Dataset_tourisMagelang_csv d with
      | None => ([FileDatasetTidakDitemukan], (None, None, None))
      | Some place_df =>
          match Dataset_usermgl_csv d with
          | None => ([FileDatasetTidakDitemukan], (None, None, None))
          | Some user_df => ([], (Some rating_df, Some place_df, Some user_df))
          end
      end
  end.

Definition load_model (d : disk) : list banner * option (Z -> Z -> Q) :=
  match mf_model_pkl d with
  | None => ([FileModelTidakDitemukan], None)
  | Some model => ([], Some model)
  end.

(** The globals the script goes on with; each may still be [None] as far as
    the test before [st.stop()] knows. *)
Record globals : Type := mk_globals {
  g_rating_df : option (list RatingDf.row);
  g_place_df : option (list PlaceDf.row);
  g_user_df : option (list UserDf.row);
  g_model : option (Z -> Z -> Q)
}.

(** Lines 39 to 43: both loaders run, then
    [if rating_df is None or model is None: st.stop()]; the banners shown and
    the globals, or [None] when the script stops. *)
Definition startup (d : disk) : list banner * option globals :=
  let '(shown1, (rating_df, place_df, user_df)) := load_data d in
  let '(shown2, model) := load_model d in
  match rating_df, model with
  | Some _, Some _ =>
      (shown1 ++ shown2, Some (mk_globals rating_df place_df user_df model))
  | _, _ => (shown1 ++ shown2, None)
  end.

(** [pattern.sub(repl, s)] for a compiled pattern of the fragment; [repl] is
    applied to the text of each match.  Matches are taken from left to right
    and do not overlap: [skip] counts the characters of the last match that
    are still to be passed.  The empty pattern matches before every character
    and at the end. *)
Fixpoint sub_from (skip : nat) (pat : list Re.atom) (repl : string -> string)
    (s : string) : string :=
  match s with
  | EmptyString =>
      match skip, pat with
      | O, [] => repl EmptyString
      | _, _ => EmptyString
      end
  | String c r =>
      match skip with
      | S k => sub_from k pat repl r
      | O =>
          if Re.match_here pat s then
            match List.length pat with
            | O => (repl EmptyString ++ String c (sub_from 0 pat repl r))%string
            | S n => (repl (substring 0 (S n) s) ++ sub_from n pat repl r)%string
            end
          else String c (sub_from 0 pat repl r)
      end
  end.

(** The replacement template of the page: group 1, which is the whole match,
    between two pairs of asterisks. *)
Definition emphasis (m : string) : string := ("**" ++ m ++ "**")%string.

(** The highlighted description: [re.sub] with the query in a group, the
    inline flag for case-insensitivity and the template above. *)
Definition highlighted (search_query desc : string) : option string :=
  match Re.compile search_query with
  | Some pat => Some (sub_from 0 pat emphasis desc)
  | None => None
  end.

(** A row of [rating_df.merge(user_df, on="User_Id", how="left")]: the rating
    and the user columns, which are NaN when no user has the id. *)
Record review : Type := mk_review {
  rated : RatingDf.row;
  by_user : option UserDf.row
}.






Section Page.

Variable rating_df : list RatingDf.row.
Variable place_df : list PlaceDf.row.
Variable user_df : list UserDf.row.

(** The left join keeps the order of the ratings; a rating whose user id is
    carried by several user rows is repeated once for each, in their order,
    and a rating without a user row stays, with missing user columns. *)
Definition merge_left : list review :=
  flat_map
    (fun r =>
       match filter (fun u => (UserDf.User_Id u =? RatingDf.User_Id r)%Z)
                    user_df with
       | [] => [mk_review r None]
       | u :: us => map (fun u' => mk_review r (Some u')) (u :: us)
       end)
    rating_df.

Definition get_reviews_for_place (place_name : string) : list review :=
  let reviews := merge_left in
  filter (fun rv => String.eqb (Text.lower (RatingDf.Place_Name (rated rv)))
                               (Text.lower place_name))
         reviews.



End Page.

(** A user table for the sample ratings; user 3 is not in it. *)
Definition sample_users : list UserDf.row :=
  [ UserDf.mk 1 "Female" 25 "Magelang"; UserDf.mk 2 "Male" 31 "Semarang" ]%string.

(** ** Vocabulary of the properties *)

(** The pattern of a plain keyword: its characters, each read literally. *)
Fixpoint literal (keyword : string) : list Re.atom :=
  match keyword with
  | EmptyString => []
  | String c r => Re.Lit c :: literal r
  end.



(** The number of occurrences, up to letter case, that [str.count] finds. *)
Definition occurrences (keyword text : string) : Z :=
  Z.of_nat (Text.count (Text.lower text) (Text.lower keyword)).

(** Two keywords that differ in letter case only. *)
Definition same_up_to_case (k1 k2 : string) : Prop :=
  Text.lower k1 = Text.lower k2.

(** [x] stands somewhere before [y] in [l]. *)
Definition comes_before {A : Type} (x y : A) (l : list A) : Prop :=
  exists l1 l2 l3, l = l1 ++ x :: l2 ++ y :: l3.

(** The insertion sort of numpy seen from the right end of the sorted prefix:
    [back] is the prefix last cell first, and [vi] moves past the cells with a
    larger key. *)
Fixpoint insert_back (v : list Z) (vi : nat) (back : list nat) : list nat :=
  match back with
  | [] => [vi]
  | x :: back' =>
      if Npy.less v vi x then x :: insert_back v vi back' else vi :: back
  end.

(** The positions [0..n-1] inserted one after the other, last cell first. *)
Definition insertion_order (v : list Z) (n : nat) : list nat :=
  fold_left (fun back vi => insert_back v vi back) (seq 0 n) [].

(** Position [a] may precede position [b] in a stable descending order of the
    column [keys]: a larger key first, equal keys in their former order. *)
Definition stable_desc (keys : list Z) (a b : nat) : Prop :=
  (nth b keys 0 < nth a keys 0)%Z \/ (nth b keys 0%Z = nth a keys 0%Z /\ a < b).

(** The same seen by numpy, which sorts the reversed column upwards: in a
    list kept last cell first, [a] precedes [b]. *)
Definition later_first (v : list Z) (a b : nat) : Prop :=
  (Npy.key v b < Npy.key v a)%Z \/ (Npy.key v b = Npy.key v a /\ b < a).

(** Eighteen places that the keyword "candi" matches once each, in the name
    and not in the description. *)
Definition eighteen_places : list PlaceDf.row :=
  map (fun i => PlaceDf.mk (Z.of_nat i)
                  ("Candi " ++ String (ascii_of_nat (64 + i)) EmptyString)%string
                  (Some "Situs purbakala"%string))
      (seq 1 18).

(** The description column is one of strings: the catalog has no row, or a
    row of it has a description. *)
Definition described (place_df : list PlaceDf.row) : Prop :=
  place_df = [] \/ exists r, In r place_df /\ PlaceDf.Description r <> None.

(** Sample tables used to run the code on concrete inputs. *)

Definition sample_places : list PlaceDf.row :=
  [ PlaceDf.mk 1 "Borobudur Temple" (Some "Visit Borobudur for sunrise");
    PlaceDf.mk 2 "Candi Mendut" None;
    PlaceDf.mk 3 "Hutan Pinus 7" (Some "dekat borobudur. BOROBUDUR!") ]%string.

Definition sample_ratings : list RatingDf.row :=
  [ RatingDf.mk 1 1 "Borobudur Temple" 4;
    RatingDf.mk 2 1 "borobudur temple" 5;
    RatingDf.mk 3 1 "BOROBUDUR TEMPLE" 3;
    RatingDf.mk 1 2 "Candi Mendut" 5;
    RatingDf.mk 1 2 "Candi Mendut" 5;
    RatingDf.mk 2 2 "Candi Mendut" 2 ]%string.

(** A stand-in for the trained model: the estimate is the place id. *)
Definition sample_model (user_id place_id : Z) : Q := inject_Z place_id.

(** The name in an entry of [recommend_places]. *)
Definition name_of (x : prediction) : string := snd (fst x).

(** [r] is the first row of the catalog that carries [place_id]. *)
Definition first_row_with (place_df : list PlaceDf.row) (place_id : Z)
    (r : PlaceDf.row) : Prop :=
  exists l1 l2,
    place_df = l1 ++ r :: l2 /\
    PlaceDf.Place_Id r = place_id /\
    forall r', In r' l1 -> PlaceDf.Place_Id r' <> place_id.

(** The text without its asterisks. *)
Fixpoint without_asterisks (s : string) : string :=
  match s with
  | EmptyString => EmptyString
  | String c r =>
      if Ascii.eqb c "*" then without_asterisks r
      else String c (without_asterisks r)
  end.

(** The text after its first [n] characters. *)
Fixpoint after (n : nat) (s : string) : string :=
  match n, s with
  | O, _ => s
  | S _, EmptyString => EmptyString
  | S k, String _ r => after k r
  end.

(** The ratings of the table whose place name is [place_name] up to case. *)
Definition ratings_named (rating_df : list RatingDf.row) (place_name : string)
  : list RatingDf.row :=
  filter (fun r => String.eqb (Text.lower (RatingDf.Place_Name r))
                              (Text.lower place_name)) rating_df.

(** ** Vocabulary of the sort *)

(** The key seen through the cell [k] of the array of positions. *)
Definition key_at (v : list Z) (t : list nat) (k : nat) : Z :=
  Npy.key v (Npy.get t k).

(** The cells [a..b-1] are in non-decreasing key order. *)
Definition sorted_range (v : list Z) (t : list nat) (a b : nat) : Prop :=
  forall i j, a <= i -> i <= j -> j < b -> (key_at v t i <= key_at v t j)%Z.

(** Every cell of [a..b-1] holds a position with the property [X]. *)
Definition cells_in (X : nat -> Prop) (t : list nat) (a b : nat) : Prop :=
  forall q, a <= q -> q < b -> X (Npy.get t q).

(** [t'] is [t] outside the cells [a..b-1]. *)
Definition same_outside (t t' : list nat) (a b : nat) : Prop :=
  List.length t' = List.length t /\
  forall q, q < a \/ b <= q -> Npy.get t' q = Npy.get t q.

(** The position [x] is held by one of the cells [a..b-1] of [t]. *)
Definition held_in (t : list nat) (a b : nat) (x : nat) : Prop :=
  exists q, a <= q /\ q < b /\ x = Npy.get t q.

(** The slot [c] of a heap is a child of the slot [p]. *)
Definition child (p c : nat) : Prop := c = 2 * p \/ c = 2 * p + 1.

(** The heap order on the slots [1..n] of the segment that starts at [pl],
    for the parents from slot [l] on. *)
Definition heap_from (v : list Z) (t : list nat) (pl l n : nat) : Prop :=
  forall p c, l <= p -> child p c -> c <= n ->
    (key_at v t (Npy.hpos pl c) <= key_at v t (Npy.hpos pl p))%Z.

(** The cell [k] lies in the segment of a frame. *)
Definition inside (s : Npy.frame) (k : nat) : bool :=
  (fst (fst s) <=? k) && (k <=? snd (fst s)).

(** What the driver keeps true of the array and the open segments: they lie
    in the array, no cell is in two of them, and two cells that are not in
    one open segment together are already in key order. *)
Definition driver_inv (v : list Z) (t : list nat) (segs : list Npy.frame)
  : Prop :=
  Forall (Npy.in_range t) segs /\
  (forall k, List.length (filter (fun s => inside s k) segs) <= 1) /\
  forall i j, i < j -> j < List.length t ->
    (forall s, In s segs -> inside s i && inside s j = false) ->
    (key_at v t i <= key_at v t j)%Z.

(** The positions may follow one another in a descending order of [keys]. *)
Definition desc_keys (keys : list Z) (a b : nat) : Prop :=
  (nth b keys 0 <= nth a keys 0)%Z.

(** [t'] holds in the cells [a..b-1] positions that [t] holds there, and is
    [t] elsewhere; [rearranges_with] allows one more position, [tmp], which
    the routine carries in a variable. *)
Definition rearranges_with (tmp : nat) (t t' : list nat) (a b : nat) : Prop :=
  same_outside t t' a b /\
  forall X : nat -> Prop, X tmp -> cells_in X t a b -> cells_in X t' a b.

Definition rearranges (t t' : list nat) (a b : nat) : Prop :=
  same_outside t t' a b /\
  forall X : nat -> Prop, cells_in X t a b -> cells_in X t' a b.

(** * Properties *)

(** ** Lists *)

Lemma firstn_In (A : Type) (n : nat) (l : list A) (x : A) :
  In x (firstn n l) -> In x l.
Proof.
  revert l; induction n as [|n IH]; intros [|a l]; simpl; try tauto.
  intros [H|H]; [now left | right; now apply IH].
Qed.


Lemma slice_to_In (A : Type) (l : list A) (stop : Z) (x : A) :
  In x (slice_to l stop) -> In x l.
Proof.
  unfold slice_to. destruct (0 <=? stop)%Z; apply firstn_In.
Qed.


Lemma slice_to_all (A : Type) (l : list A) (stop : Z) :
  (Z.of_nat (List.length l) <= stop)%Z -> slice_to l stop = l.
Proof.
  intros H. unfold slice_to.
  destruct (Z.leb_spec 0 stop); [apply firstn_all2; lia | lia].
Qed.

(** ** The recommender *)

Section Recommender.

Variable rating_df : list RatingDf.row.
Variable place_df : list PlaceDf.row.
Variable model_predict : Z -> Z -> Q.


Lemma unrated_spec (u p : Z) :
  In p (unrated rating_df place_df u) <-> In p (all_places place_df) /\ ~ In p (rated_places rating_df u).
Proof.
  unfold unrated. rewrite filter_In, negb_true_iff.
  split; intros [H1 H2]; split; auto.
  - intros Hin. apply not_true_iff_false in H2. apply H2.
    apply existsb_exists. exists p. split; [assumption | apply Z.eqb_refl].
  - apply not_true_iff_false. intros Hex. apply H2.
    apply existsb_exists in Hex. destruct Hex as (q & Hq & Heq).
    apply Z.eqb_eq in Heq. now subst.
Qed.

(** A place id of the catalog selects at least one catalog row. *)
Lemma lookup_name_nonempty (p : Z) :
  In p (all_places place_df) ->
  exists name,
    Pandas.values0
      (map PlaceDf.Place_Name
           (filter (fun r => (PlaceDf.Place_Id r =? p)%Z) place_df)) = Some name.
Proof.
  unfold all_places. intros Hin. apply in_map_iff in Hin.
  destruct Hin as (r & Hr & Hin).
  assert (Hf : In r (filter (fun r => (PlaceDf.Place_Id r =? p)%Z) place_df)).
  { apply filter_In. split; [assumption|]. apply Z.eqb_eq. assumption. }
  destruct (filter _ place_df) as [|r0 rs]; [destruct Hf|].
  simpl. eauto.
Qed.

Lemma predict_all_total (u : Z) (todo : list Z) :
  (forall p, In p todo -> In p (all_places place_df)) ->
  exists l, predict_all place_df model_predict u todo = Some l /\
            map place_of l = todo /\
            Forall (fun x => est_rating x = model_predict u (place_of x)) l.
Proof.
  induction todo as [|p todo IH]; intros Hin; simpl.
  - exists []. repeat split; constructor.
  - destruct (lookup_name_nonempty p) as [name Hname]; [apply Hin; now left|].
    rewrite Hname.
    destruct IH as (l & Hl & Hmap & Hest); [intros; apply Hin; now right|].
    rewrite Hl. simpl. exists ((p, name, predict_rating model_predict u p) :: l).
    repeat split.
    + simpl. now rewrite Hmap.
    + constructor; [reflexivity | assumption].
Qed.

Lemma insert_desc_perm (x : prediction) (l : list prediction) :
  Permutation (insert_desc x l) (x :: l).
Proof.
  induction l as [|y l IH]; simpl; [reflexivity|].
  destruct (Qle_bool (est_rating y) (est_rating x)); [reflexivity|].
  rewrite IH. apply perm_swap.
Qed.

Lemma sort_reverse_perm (l : list prediction) : Permutation (sort_reverse l) l.
Proof.
  induction l as [|x l IH]; simpl; [reflexivity|].
  rewrite insert_desc_perm. now constructor.
Qed.






End Recommender.

(** C9: every candidate of [recommend_places] is a place id of the catalog,
    so the selection of its name is not empty and [.values[0]] does not
    raise; [recommend_places] returns a list for every user id and every
    [top_n]. *)
Theorem C9_recommend_places_total
    (rating_df : list RatingDf.row) (place_df : list PlaceDf.row)
    (model_predict : Z -> Z -> Q) (user_id top_n : Z) :
  Forall (fun p =>
            map PlaceDf.Place_Name
                (filter (fun r => (PlaceDf.Place_Id r =? p)%Z) place_df) <> [])
         (unrated rating_df place_df user_id) /\
  exists res,
    recommend_places rating_df place_df model_predict user_id top_n = Some res.
Proof.
  split.
  - apply Forall_forall. intros p Hp. apply unrated_spec in Hp.
    destruct (lookup_name_nonempty place_df p (proj1 Hp)) as [name Hn].
    intros E. rewrite E in Hn. discriminate.
  - unfold recommend_places.
    destruct (predict_all_total place_df model_predict user_id
                (unrated rating_df place_df user_id)) as (l & Hl & _).
    + intros p Hp. apply unrated_spec in Hp. tauto.
    + rewrite Hl. eauto.
Qed.



(** C5 (as amended): [recommend_places(u, 0)] is empty; for [top_n < 0] the
    slice [predictions[:top_n]] is the ranked list of all candidates without
    its last [-top_n] entries, which is empty only when there are at most
    [-top_n] candidates. *)
Theorem C5_recommend_places_nonpositive
    (rating_df : list RatingDf.row) (place_df : list PlaceDf.row)
    (model_predict : Z -> Z -> Q) (user_id top_n : Z) :
  (top_n <= 0)%Z ->
  exists res ranked,
    recommend_places rating_df place_df model_predict user_id top_n = Some res /\
    recommend_places rating_df place_df model_predict user_id
      (Z.of_nat (List.length (unrated rating_df place_df user_id))) = Some ranked /\
    List.length ranked = List.length (unrated rating_df place_df user_id) /\
    (top_n = 0%Z -> res = []) /\
    ((top_n < 0)%Z ->
       res = firstn (List.length ranked - Z.to_nat (- top_n)) ranked /\
       List.length res = List.length ranked - Z.to_nat (- top_n)).
Proof.
  intros Hn. unfold recommend_places.
  destruct (predict_all_total place_df model_predict user_id
              (unrated rating_df place_df user_id)) as (l & Hl & Hmap & _).
  { intros p Hp. apply unrated_spec in Hp. tauto. }
  rewrite Hl.
  assert (Hlen : List.length (sort_reverse l)
                 = List.length (unrated rating_df place_df user_id)).
  { rewrite (Permutation_length (sort_reverse_perm l)).
    now rewrite <- (length_map place_of), Hmap. }
  exists (slice_to (sort_reverse l) top_n), (sort_reverse l).
  split; [reflexivity|]. split.
  { rewrite slice_to_all; [reflexivity | lia]. }
  split; [exact Hlen|]. split.
  - intros ->. reflexivity.
  - intros Hlt. unfold slice_to.
    destruct (Z.leb_spec 0 top_n); [lia|].
    split; [reflexivity|]. rewrite length_firstn. lia.
Qed.

Lemma C5_recommend_places_nonpositive_witness :
  exists res ranked,
    recommend_places sample_ratings sample_places sample_model 7 (-1) = Some res /\
    recommend_places sample_ratings sample_places sample_model 7 3 = Some ranked /\
    List.length res = 2.
Proof.
  destruct (C5_recommend_places_nonpositive sample_ratings sample_places
              sample_model 7 (-1)) as (res & ranked & H1 & H2 & H3 & _ & H5).
  - lia.
  - exists res, ranked. split; [exact H1|]. split; [exact H2|].
    destruct H5 as [_ H5]; [lia|]. rewrite H5, H3. reflexivity.
Defined.

(** C5 as stated fails: user 7 has rated nothing, the catalog has three
    places, and [top_n = -1] returns the two best of them. *)
Lemma C5_counterexample :
  (-1 <= 0)%Z /\
  recommend_places sample_ratings sample_places sample_model 7 (-1)
  = Some [ (3%Z, "Hutan Pinus 7"%string, inject_Z 3);
           (2%Z, "Candi Mendut"%string, inject_Z 2) ] /\
  recommend_places sample_ratings sample_places sample_model 7 (-1) <> Some [].
Proof.
  split; [lia|]. split; [reflexivity | discriminate].
Qed.

(** ** The average rating *)

Lemma Zpos_of_nat_succ (n : nat) : Zpos (Pos.of_nat (S n)) = Z.of_nat (S n).
Proof.
  rewrite <- Pos.of_nat_succ. reflexivity.
Qed.

Lemma mean_spec (xs : list Z) :
  match xs with
  | [] => Pandas.mean xs = None
  | _ :: _ =>
      exists q, Pandas.mean xs = Some q /\
                (q * inject_Z (Z.of_nat (List.length xs))
                 == inject_Z (fold_right Z.add 0%Z xs))%Q
  end.
Proof.
  destruct xs as [|x xs]; [reflexivity|].
  eexists. split; [reflexivity|].
  unfold Qeq, Qmult, inject_Z. cbn [Qnum Qden].
  cbn [List.length]. rewrite Pos.mul_1_r, Z.mul_1_r, Zpos_of_nat_succ. reflexivity.
Qed.

(** C7: the average rating of a place name is the arithmetic mean of every
    rating value whose place name equals it up to letter case, each row
    counted; with no such row the mean is NaN and the page writes that there
    is no rating yet instead of a number.  Ratings 4, 5 and 3 give 4. *)
Theorem C7_average_rating (rating_df : list RatingDf.row) (place_name : string) :
  let values :=
    map RatingDf.Place_Rating
        (filter (fun r =>
                   if string_dec (Text.lower (RatingDf.Place_Name r))
                                 (Text.lower place_name)
                   then true else false) rating_df) in
  (values = [] ->
     avg_rating rating_df place_name = None /\
     write_rating rating_df place_name = BelumAdaRating) /\
  (values <> [] ->
     exists q,
       avg_rating rating_df place_name = Some q /\
       (q * inject_Z (Z.of_nat (List.length values))
        == inject_Z (fold_right Z.add 0%Z values))%Q /\
       write_rating rating_df place_name = RataRataRating q) /\
  (exists q, avg_rating sample_ratings "Borobudur Temple" = Some q /\ (q == 4)%Q) /\
  (exists q, avg_rating sample_ratings "candi mendut" = Some q /\ (q == 4)%Q) /\
  write_rating sample_ratings "Hutan Pinus 7" = BelumAdaRating.
Proof.
  intros values.
  assert (Hv : avg_rating rating_df place_name = Pandas.mean values).
  { unfold avg_rating, values. do 2 f_equal. apply filter_ext. intros r.
    destruct (string_dec _ _) as [E|E].
    - now apply String.eqb_eq.
    - now apply String.eqb_neq. }
  unfold write_rating. rewrite Hv.
  pose proof (mean_spec values) as Hm.
  split; [|split; [|split; [|split]]].
  - intros E. rewrite E in *. rewrite Hm. split; reflexivity.
  - intros Hne. destruct values as [|x xs]; [congruence|].
    destruct Hm as (q & Hq & Hmean). exists q. rewrite Hq. repeat split; assumption.
  - eexists. split; [reflexivity | reflexivity].
  - eexists. split; [reflexivity | reflexivity].
  - reflexivity.
Qed.

(** ** Text and patterns *)














(** ** Rows that [search_place] returns *)

Lemma take_In (A : Type) (df : list A) (indexer : list nat) (x : A) :
  In x (Pandas.take df indexer) -> In x df.
Proof.
  unfold Pandas.take. rewrite in_flat_map. intros (i & _ & Hx).
  destruct (nth_error df i) eqn:E; [|destruct Hx].
  destruct Hx as [<-|[]]. eapply nth_error_In; eauto.
Qed.

Lemma drop_seen_In (A : Type) (eq_dec : forall x y : A, {x = y} + {x <> y})
    (seen df : list A) (x : A) :
  In x (Pandas.drop_seen eq_dec seen df) <-> In x df /\ ~ In x seen.
Proof.
  revert seen. induction df as [|r df IH]; intros seen; simpl; [tauto|].
  destruct (in_dec eq_dec r seen) as [Hin|Hnin].
  - rewrite IH. split; [tauto|]. intros [[<-|H] Hn]; tauto.
  - simpl. rewrite IH. simpl. split.
    + intros [<-|[H1 H2]]; [tauto|]. split; [tauto|]. tauto.
    + intros [[<-|H] Hn]; [tauto|].
      destruct (eq_dec r x) as [<-|Hne]; [tauto|]. right. tauto.
Qed.

Lemma drop_seen_NoDup (A : Type) (eq_dec : forall x y : A, {x = y} + {x <> y})
    (seen df : list A) :
  NoDup (Pandas.drop_seen eq_dec seen df).
Proof.
  revert seen. induction df as [|r df IH]; intros seen; simpl; [constructor|].
  destruct (in_dec eq_dec r seen); [apply IH|].
  constructor; [|apply IH]. rewrite drop_seen_In. simpl. tauto.
Qed.

Lemma drop_duplicates_In (A : Type) (eq_dec : forall x y : A, {x = y} + {x <> y})
    (df : list A) (x : A) :
  In x (Pandas.drop_duplicates eq_dec df) <-> In x df.
Proof. unfold Pandas.drop_duplicates. rewrite drop_seen_In. simpl. tauto. Qed.

Lemma matched_In (place_df : list PlaceDf.row) (pat : list Re.atom) (r : PlaceDf.row) :
  In r (matched place_df pat) <->
  In r place_df /\
  (Re.search pat (PlaceDf.Place_Name r) = true \/
   exists d, PlaceDf.Description r = Some d /\ Re.search pat d = true).
Proof.
  unfold matched. rewrite drop_duplicates_In, in_app_iff, !filter_In.
  unfold str_contains. split.
  - intros [[H1 H2]|[H1 H2]]; split; auto.
    destruct (PlaceDf.Description r) as [d|]; [|discriminate]. right. eauto.
  - intros [H1 [H2|(d & Hd & H2)]]; [left; auto|].
    right. split; [assumption|]. now rewrite Hd.
Qed.

(** *** The [.str] accessor on the two columns *)

Lemma str_accessor_names (place_df : list PlaceDf.row) :
  Pandas.str_accessor (map (fun r => Some (PlaceDf.Place_Name r)) place_df)
  = Some (map (fun r => Some (PlaceDf.Place_Name r)) place_df).
Proof. destruct place_df; reflexivity. Qed.

Lemma object_dtype_described (place_df : list PlaceDf.row) :
  Pandas.object_dtype (map PlaceDf.Description place_df) = true
  <-> described place_df.
Proof.
  unfold described. destruct place_df as [|r0 l]; [cbn; tauto|].
  cbn [map Pandas.object_dtype].
  change (PlaceDf.Description r0 :: map PlaceDf.Description l)
    with (map PlaceDf.Description (r0 :: l)).
  rewrite existsb_exists. split.
  - intros (cell & Hin & Hc). right. apply in_map_iff in Hin.
    destruct Hin as (r & <- & Hr). exists r. split; [assumption|].
    destruct (PlaceDf.Description r); [discriminate | discriminate].
  - intros [H|(r & Hr & Hd)]; [discriminate|].
    exists (PlaceDf.Description r). split; [now apply in_map|].
    destruct (PlaceDf.Description r); [reflexivity | congruence].
Qed.

(** [search_place] after the two accessors: it goes on exactly when the
    description column is one of strings. *)
Lemma search_place_unfold (place_df : list PlaceDf.row) (keyword : string) :
  search_place place_df keyword
  = match Re.compile keyword with
    | None => None
    | Some pat =>
        if Pandas.object_dtype (map PlaceDf.Description place_df)
        then Some match matched place_df pat with
                  | [] => []
                  | _ :: _ =>
                      Pandas.sort_values_desc Relevance
                        (map (fun row =>
                                mk_hit row
                                  (relevance_score (Text.lower keyword) row))
                             (matched place_df pat))
                  end
        else None
    end.
Proof.
  unfold search_place. destruct (Re.compile keyword) as [pat|]; [|reflexivity].
  rewrite str_accessor_names. unfold Pandas.str_accessor.
  destruct (Pandas.object_dtype (map PlaceDf.Description place_df));
    [|reflexivity].
  destruct (matched place_df pat); reflexivity.
Qed.

(** A result means that the description column was one of strings. *)
Lemma search_place_described (place_df : list PlaceDf.row) (keyword : string)
    (hits : list hit) :
  search_place place_df keyword = Some hits -> described place_df.
Proof.
  rewrite search_place_unfold. destruct (Re.compile keyword); [|discriminate].
  destruct (Pandas.object_dtype _) eqn:E; [|discriminate].
  intros _. now apply object_dtype_described.
Qed.

(** On a catalog with rows and no description at all, the accessor of line 76
    raises, whatever the keyword. *)
Lemma search_place_undescribed (place_df : list PlaceDf.row) (keyword : string) :
  ~ described place_df -> search_place place_df keyword = None.
Proof.
  intros Hd. rewrite search_place_unfold. destruct (Re.compile keyword);
    [|reflexivity].
  destruct (Pandas.object_dtype _) eqn:E; [|reflexivity].
  exfalso. now apply Hd, object_dtype_described.
Qed.

(** Every returned hit is a matched row together with its score. *)
Lemma search_place_hit (place_df : list PlaceDf.row) (keyword : string)
    (hits : list hit) (h : hit) :
  search_place place_df keyword = Some hits -> In h hits ->
  exists pat, Re.compile keyword = Some pat /\
              In (place h) (matched place_df pat) /\
              Relevance h = relevance_score (Text.lower keyword) (place h).
Proof.
  rewrite search_place_unfold.
  destruct (Re.compile keyword) as [pat|]; [|discriminate].
  destruct (Pandas.object_dtype _); [|discriminate].
  intros Hs Hin. exists pat. split; [reflexivity|].
  destruct (matched place_df pat) as [|r rs] eqn:E.
  - injection Hs as <-. destruct Hin.
  - injection Hs as <-. apply take_In in Hin.
    assert (Hin' : In h (map (fun row =>
                           mk_hit row (relevance_score (Text.lower keyword) row))
                        (r :: rs))) by exact Hin.
    apply in_map_iff in Hin'.
    destruct Hin' as (row & <- & Hrow). simpl. split; [assumption | reflexivity].
Qed.


(** C3: the relevance of every hit is twice the number of occurrences of the
    keyword in the place name plus the number of occurrences in the
    description, both up to letter case, a missing description counting 0;
    "Borobudur Temple" described by "Visit Borobudur for sunrise" scores 3 for
    "Borobudur". *)
Theorem C3_relevance_score (place_df : list PlaceDf.row) (keyword : string)
    (hits : list hit) (h : hit) :
  search_place place_df keyword = Some hits ->
  In h hits ->
  Relevance h
  = (2 * occurrences keyword (PlaceDf.Place_Name (place h))
     + match PlaceDf.Description (place h) with
       | Some d => 1 * occurrences keyword d
       | None => 0
       end)%Z
  /\ search_place
       [PlaceDf.mk 1 "Borobudur Temple" (Some "Visit Borobudur for sunrise"%string)]
       "Borobudur"
     = Some [mk_hit (PlaceDf.mk 1 "Borobudur Temple"
                                 (Some "Visit Borobudur for sunrise"%string)) 3].
Proof.
  intros Hs Hin. split; [|vm_compute; reflexivity].
  destruct (search_place_hit _ _ _ _ Hs Hin) as (pat & _ & _ & ->).
  unfold relevance_score, occurrences.
  destruct (PlaceDf.Description (place h)); lia.
Qed.

Lemma C3_relevance_score_witness :
  Relevance (mk_hit (PlaceDf.mk 3 "Hutan Pinus 7"
                       (Some "dekat borobudur. BOROBUDUR!"%string)) 2)
  = (2 * occurrences "Borobudur"
           (PlaceDf.Place_Name
              (place (mk_hit (PlaceDf.mk 3 "Hutan Pinus 7"
                                (Some "dekat borobudur. BOROBUDUR!"%string)) 2)))
     + match PlaceDf.Description
               (place (mk_hit (PlaceDf.mk 3 "Hutan Pinus 7"
                                 (Some "dekat borobudur. BOROBUDUR!"%string)) 2))
       with
       | Some d => 1 * occurrences "Borobudur" d
       | None => 0
       end)%Z.
Proof.
  apply (proj1 (C3_relevance_score sample_places "Borobudur"
                  [mk_hit (PlaceDf.mk 1 "Borobudur Temple"
                             (Some "Visit Borobudur for sunrise"%string)) 3;
                   mk_hit (PlaceDf.mk 3 "Hutan Pinus 7"
                             (Some "dekat borobudur. BOROBUDUR!"%string)) 2]
                  (mk_hit (PlaceDf.mk 3 "Hutan Pinus 7"
                             (Some "dekat borobudur. BOROBUDUR!"%string)) 2)
                  ltac:(vm_compute; reflexivity)
                  ltac:(right; left; reflexivity))).
Defined.



(** ** The array of positions *)

Module NpyFacts.

Import Npy.

Lemma length_set (t : list nat) (p x : nat) :
  List.length (set t p x) = List.length t.
Proof.
  revert p; induction t as [|y t IH]; intros [|p]; simpl; auto.
Qed.

Lemma get_set_eq (t : list nat) (p x : nat) :
  p < List.length t -> get (set t p x) p = x.
Proof.
  revert p; induction t as [|y t IH]; intros [|p]; simpl; try lia; auto.
  intros H. apply IH. lia.
Qed.

Lemma get_set_neq (t : list nat) (p q x : nat) :
  p <> q -> get (set t p x) q = get t q.
Proof.
  revert p q; induction t as [|y t IH]; intros [|p] [|q]; simpl; auto; try lia.
  intros H. apply IH. lia.
Qed.

Lemma set_set (t : list nat) (p x y : nat) : set (set t p x) p y = set t p y.
Proof.
  revert p; induction t as [|z t IH]; intros [|p]; simpl; auto.
  now rewrite IH.
Qed.

Lemma set_get (t : list nat) (p : nat) : set t p (get t p) = t.
Proof.
  revert p; induction t as [|z t IH]; intros [|p]; simpl; auto.
  unfold get in IH. now rewrite IH.
Qed.

Lemma set_app (pre post : list nat) (h x : nat) :
  set (pre ++ h :: post) (List.length pre) x = pre ++ x :: post.
Proof.
  induction pre as [|y pre IH]; simpl; [reflexivity | now rewrite IH].
Qed.

Lemma get_app (pre post : list nat) (h : nat) :
  get (pre ++ h :: post) (List.length pre) = h.
Proof.
  unfold get. rewrite nth_middle. reflexivity.
Qed.

(** Writing [x] over a cell trades the old content for [x]. *)
Lemma set_perm (t : list nat) (p x : nat) :
  p < List.length t -> Permutation (get t p :: set t p x) (x :: t).
Proof.
  revert p; induction t as [|y t IH]; intros [|p]; simpl; try lia.
  - intros _. apply perm_swap.
  - intros H. unfold get in *. simpl.
    etransitivity; [apply perm_swap|].
    etransitivity; [apply perm_skip, IH; lia|]. apply perm_swap.
Qed.

Lemma get_swap_r (t : list nat) (p q : nat) :
  q < List.length t -> get (swap t p q) q = get t p.
Proof.
  intros Hq. unfold swap. apply get_set_eq. now rewrite length_set.
Qed.

Lemma get_swap_other (t : list nat) (p q r : nat) :
  r <> p -> r <> q -> get (swap t p q) r = get t r.
Proof.
  intros H1 H2. unfold swap. rewrite !get_set_neq by lia. reflexivity.
Qed.

Lemma length_swap (t : list nat) (p q : nat) :
  List.length (swap t p q) = List.length t.
Proof. unfold swap. now rewrite !length_set. Qed.

Lemma swap_perm (t : list nat) (p q : nat) :
  p < List.length t -> q < List.length t -> Permutation (swap t p q) t.
Proof.
  intros Hp Hq. apply Permutation_cons_inv with (a := get t q).
  assert (E : get (set t p (get t q)) q = get t q).
  { destruct (Nat.eq_dec p q) as [->|Hne].
    - now apply get_set_eq.
    - now apply get_set_neq. }
  unfold swap. rewrite <- E at 1.
  etransitivity; [apply set_perm; now rewrite length_set|].
  apply set_perm. exact Hp.
Qed.

(** Moving the hole: the cell [q] is copied to the hole [p], which makes [q]
    the hole; with the pending value written back this is a swap. *)
Lemma hole_move (t : list nat) (p q x : nat) :
  p <> q -> p < List.length t ->
  set (set t p (get t q)) q x = swap (set t p x) p q.
Proof.
  intros Hne Hp. unfold swap.
  rewrite (get_set_neq t p q x Hne), set_set, get_set_eq by assumption.
  reflexivity.
Qed.

Lemma hole_move_perm (t : list nat) (p q x : nat) :
  p < List.length t -> q < List.length t ->
  Permutation (set (set t p (get t q)) q x) (set t p x).
Proof.
  intros Hp Hq. destruct (Nat.eq_dec p q) as [->|Hne].
  - now rewrite set_set.
  - rewrite hole_move by assumption. apply swap_perm; now rewrite length_set.
Qed.

(** *** Insertion sort, from the start of the array *)

Section Insertion.

Variable v : list Z.

Lemma length_insert_back (vi : nat) (back : list nat) :
  List.length (insert_back v vi back) = S (List.length back).
Proof.
  induction back as [|x back IH]; simpl; [reflexivity|].
  destruct (less v vi x); simpl; [now rewrite IH | reflexivity].
Qed.

Lemma shift_spec (vi : nat) (back : list nat) :
  forall (h : nat) (post : list nat) (fuel : nat),
    List.length back <= fuel ->
    shift v fuel (rev back ++ h :: post) 0 vi (List.length back)
    = rev (insert_back v vi back) ++ post.
Proof.
  induction back as [|x back IH]; intros h post fuel Hf.
  - destruct fuel; reflexivity.
  - destruct fuel as [|f]; [simpl in Hf; lia|].
    cbn [shift List.length rev insert_back].
    replace (S (List.length back) - 1) with (List.length back) by lia.
    assert (Ex : get ((rev back ++ [x]) ++ h :: post) (List.length back) = x).
    { rewrite <- app_assoc. simpl. rewrite <- (length_rev back). apply get_app. }
    rewrite Ex. cbn [Nat.ltb Nat.leb andb].
    assert (El : List.length (rev back ++ [x]) = S (List.length back)).
    { rewrite length_app, length_rev. simpl. lia. }
    destruct (less v vi x).
    + rewrite <- El, set_app, <- app_assoc. cbn [app].
      rewrite IH by (simpl in Hf; lia).
      cbn [rev]. now rewrite <- app_assoc.
    + rewrite <- El, set_app. cbn [rev]. rewrite <- !app_assoc. reflexivity.
Qed.

Lemma insertion_from_spec (k : nat) :
  forall back rest : list nat,
    k <= List.length rest ->
    insertion_from v k (rev back ++ rest) 0 (List.length back)
    = rev (fold_left (fun b vi => insert_back v vi b) (firstn k rest) back)
      ++ skipn k rest.
Proof.
  induction k as [|k IH]; intros back rest Hk; [reflexivity|].
  destruct rest as [|vi rest]; [simpl in Hk; lia|].
  cbn [insertion_from firstn skipn fold_left].
  assert (Eg : get (rev back ++ vi :: rest) (List.length back) = vi).
  { rewrite <- (length_rev back). apply get_app. }
  rewrite Eg, shift_spec by lia.
  rewrite <- (length_insert_back vi back).
  apply IH. simpl in Hk. lia.
Qed.

Lemma insertion_spec (n : nat) :
  insertion v (seq 0 n) 0 (n - 1) = rev (insertion_order v n).
Proof.
  destruct n as [|n]; [reflexivity|].
  unfold insertion, insertion_order.
  replace (S n - 1 - 0) with n by lia.
  change (seq 0 (S n)) with (rev [0] ++ seq 1 n).
  change 1 with (List.length [0]) at 2.
  rewrite insertion_from_spec by (rewrite length_seq; lia).
  rewrite firstn_all2, skipn_all2, app_nil_r by (rewrite length_seq; lia).
  reflexivity.
Qed.

(** Up to 16 rows the introsort is this insertion sort. *)
Lemma aquicksort_small :
  List.length v <= 16 -> aquicksort v = rev (insertion_order v (List.length v)).
Proof.
  intros Hn. unfold aquicksort.
  replace (3 * List.length v + 3) with (S (S (3 * List.length v + 1))) by lia.
  cbn [run].
  assert (Hd : (depth_limit (List.length v) <? 0)%Z = false).
  { apply Z.ltb_ge. unfold depth_limit. lia. }
  rewrite Hd.
  assert (Hs : (SMALL_QUICKSORT <? List.length v - 1 - 0) = false).
  { apply Nat.ltb_ge. unfold SMALL_QUICKSORT. lia. }
  rewrite Hs. apply insertion_spec.
Qed.

Lemma insert_back_perm (vi : nat) (back : list nat) :
  Permutation (insert_back v vi back) (vi :: back).
Proof.
  induction back as [|x back IH]; simpl; [reflexivity|].
  destruct (less v vi x); [|reflexivity].
  rewrite IH. apply perm_swap.
Qed.

Lemma insert_back_sorted (vi : nat) (back : list nat) :
  Forall (fun x => x < vi) back ->
  StronglySorted (later_first v) back ->
  StronglySorted (later_first v) (insert_back v vi back).
Proof.
  intros Hlt Hs. induction Hs as [|x back Hs IH Hall]; simpl.
  - repeat constructor.
  - inversion Hlt as [|? ? Hx Hlt']; subst.
    unfold less. destruct (Z.ltb_spec (key v vi) (key v x)) as [Hk|Hk].
    + constructor; [now apply IH|].
      rewrite Forall_forall in *. intros z Hz.
      apply (Permutation_in _ (insert_back_perm vi back)) in Hz.
      destruct Hz as [<-|Hz]; [left; exact Hk | now apply Hall].
    + constructor; [now constructor|].
      assert (Hxv : later_first v vi x).
      { unfold later_first. destruct (Z.eq_dec (key v x) (key v vi)); [right | left]; lia. }
      constructor; [exact Hxv|].
      rewrite Forall_forall in *. intros z Hz.
      specialize (Hall z Hz). specialize (Hlt' z Hz).
      unfold later_first in *. destruct (Z.eq_dec (key v z) (key v vi)); [right | left]; lia.
Qed.

Lemma insertion_order_spec (n : nat) :
  Permutation (insertion_order v n) (seq 0 n) /\
  StronglySorted (later_first v) (insertion_order v n).
Proof.
  unfold insertion_order. induction n as [|n [IHp IHs]].
  - split; [reflexivity | constructor].
  - rewrite seq_S, fold_left_app. simpl. split.
    + rewrite insert_back_perm, IHp. change (n :: seq 0 n) with ([n] ++ seq 0 n).
      apply Permutation_app_comm.
    + apply insert_back_sorted; [|assumption].
      rewrite Forall_forall. intros x Hx.
      apply (Permutation_in _ IHp), in_seq in Hx. lia.
Qed.

End Insertion.

(** *** Every routine permutes the array *)

Section Permutes.

Variable v : list Z.

Lemma sift_perm (fuel : nat) :
  forall (t : list nat) (pl n tmp i j : nat),
    pl + n <= List.length t -> hpos pl i < List.length t -> 1 <= j ->
    Permutation (sift v fuel t pl n tmp i j) (set t (hpos pl i) tmp) /\
    List.length (sift v fuel t pl n tmp i j) = List.length t.
Proof.
  induction fuel as [|f IH]; intros t pl n tmp i j Hn Hi Hj; cbn [sift].
  - split; [reflexivity | apply length_set].
  - destruct (Nat.leb_spec j n) as [Hjn|Hjn]; [|split; [reflexivity | apply length_set]].
    set (j' := if (j <? n) && less v (get t (hpos pl j)) (get t (hpos pl (j + 1)))
               then j + 1 else j).
    assert (Hj' : 1 <= j' /\ j' <= n).
    { unfold j'. destruct (Nat.ltb_spec j n); simpl; [|lia].
      destruct (less v _ _); lia. }
    assert (Hq : hpos pl j' < List.length t) by (unfold hpos; lia).
    destruct (less v tmp (get t (hpos pl j'))); [|split; [reflexivity | apply length_set]].
    destruct (IH (set t (hpos pl i) (get t (hpos pl j'))) pl n tmp j' (j' + j'))
      as [Hp Hl]; rewrite ?length_set; try lia.
    split.
    + rewrite Hp. now apply hole_move_perm.
    + now rewrite Hl, length_set.
Qed.

Lemma heapify_perm (l : nat) :
  forall (t : list nat) (pl n : nat),
    pl + n <= List.length t -> l <= n ->
    Permutation (heapify v l t pl n) t /\
    List.length (heapify v l t pl n) = List.length t.
Proof.
  induction l as [|l IH]; intros t pl n Hn Hl; cbn [heapify].
  - split; reflexivity.
  - destruct (sift_perm n t pl n (get t (hpos pl (S l))) (S l) (S l + S l))
      as [Hp Hlen]; try (unfold hpos; lia).
    rewrite set_get in Hp.
    destruct (IH (sift v n t pl n (get t (hpos pl (S l))) (S l) (S l + S l)) pl n)
      as [Hp' Hlen']; try lia.
    split; [now rewrite Hp' | now rewrite Hlen'].
Qed.

Lemma extract_perm (n : nat) :
  forall (t : list nat) (pl : nat),
    pl + n <= List.length t ->
    Permutation (extract v n t pl) t /\
    List.length (extract v n t pl) = List.length t.
Proof.
  induction n as [|n IH]; intros t pl Hn; cbn [extract].
  - split; reflexivity.
  - destruct n as [|m]; [split; reflexivity|].
    set (tmp := get t (hpos pl (S (S m)))).
    set (t1 := set t (hpos pl (S (S m))) (get t (hpos pl 1))).
    destruct (sift_perm (S m) t1 pl (S m) tmp 1 2) as [Hp Hlen];
      try (unfold t1; rewrite ?length_set; unfold hpos; lia).
    destruct (IH (sift v (S m) t1 pl (S m) tmp 1 2) pl) as [Hp' Hlen'];
      [rewrite Hlen; unfold t1; rewrite length_set; lia|].
    assert (Ht1 : Permutation (set t1 (hpos pl 1) tmp) t).
    { unfold t1, tmp. rewrite hole_move_perm by (unfold hpos; lia).
      now rewrite set_get. }
    split.
    + now rewrite Hp', Hp.
    + rewrite Hlen', Hlen. unfold t1. apply length_set.
Qed.

Lemma aheapsort_perm (t : list nat) (pl n : nat) :
  pl + n <= List.length t ->
  Permutation (aheapsort v t pl n) t /\
  List.length (aheapsort v t pl n) = List.length t.
Proof.
  intros Hn. unfold aheapsort.
  destruct (heapify_perm (n / 2) t pl n Hn) as [Hp Hl].
  { apply Nat.Div0.div_le_upper_bound. lia. }
  destruct (extract_perm n (heapify v (n / 2) t pl n) pl) as [Hp' Hl']; [lia|].
  split; [now rewrite Hp' | now rewrite Hl'].
Qed.

Lemma shift_perm (fuel : nat) :
  forall (t : list nat) (pl vi pj : nat),
    pj < List.length t ->
    Permutation (shift v fuel t pl vi pj) (set t pj vi) /\
    List.length (shift v fuel t pl vi pj) = List.length t.
Proof.
  induction fuel as [|f IH]; intros t pl vi pj Hpj; cbn [shift].
  - split; [reflexivity | apply length_set].
  - destruct (Nat.ltb_spec pl pj) as [Hlt|Hge]; cbn [andb];
      [|split; [reflexivity | apply length_set]].
    destruct (less v vi (get t (pj - 1))); [|split; [reflexivity | apply length_set]].
    destruct (IH (set t pj (get t (pj - 1))) pl vi (pj - 1)) as [Hp Hl];
      [rewrite length_set; lia|].
    split.
    + rewrite Hp. apply hole_move_perm; lia.
    + now rewrite Hl, length_set.
Qed.

Lemma insertion_from_perm (k : nat) :
  forall (t : list nat) (pl pi : nat),
    pi + k <= List.length t ->
    Permutation (insertion_from v k t pl pi) t /\
    List.length (insertion_from v k t pl pi) = List.length t.
Proof.
  induction k as [|k IH]; intros t pl pi Hk; cbn [insertion_from].
  - split; reflexivity.
  - destruct (shift_perm pi t pl (get t pi) pi) as [Hp Hl]; [lia|].
    rewrite set_get in Hp.
    destruct (IH (shift v pi t pl (get t pi) pi) pl (S pi)) as [Hp' Hl']; [lia|].
    split; [now rewrite Hp' | now rewrite Hl'].
Qed.

Lemma insertion_perm (t : list nat) (pl pr : nat) :
  pl <= pr -> pr < List.length t ->
  Permutation (insertion v t pl pr) t /\
  List.length (insertion v t pl pr) = List.length t.
Proof.
  intros H1 H2. unfold insertion. apply insertion_from_perm. lia.
Qed.

Lemma scan_up_bound (fuel : nat) :
  forall (t : list nat) (vp : Z) (p s : nat),
    p <= s -> s < p + fuel -> (key v (get t s) <? vp)%Z = false ->
    p <= scan_up v fuel t vp p <= s.
Proof.
  induction fuel as [|f IH]; intros t vp p s Hps Hf Hs; cbn [scan_up]; [lia|].
  destruct (key v (get t p) <? vp)%Z eqn:E; [|lia].
  assert (p <> s) by (intros ->; congruence).
  destruct (IH t vp (S p) s) as [H1 H2]; try lia; try assumption.
Qed.

Lemma scan_down_le (fuel : nat) :
  forall (t : list nat) (vp : Z) (pj : nat), scan_down v fuel t vp pj <= pj.
Proof.
  induction fuel as [|f IH]; intros t vp pj; cbn [scan_down]; [lia|].
  destruct (vp <? key v (get t pj))%Z; [|lia].
  specialize (IH t vp (pj - 1)). lia.
Qed.

(** The pivot parked at [pr - 1] stops the upward scan, so the meeting point
    stays inside the segment. *)
Lemma hoare_spec (fuel : nat) :
  forall (t : list nat) (vp : Z) (pi pj pr : nat),
    pi < pj -> pj < pi + fuel -> pj <= pr - 1 -> pr - 1 < List.length t ->
    (key v (get t (pr - 1)) <? vp)%Z = false ->
    Permutation (fst (hoare v fuel t vp pi pj)) t /\
    List.length (fst (hoare v fuel t vp pi pj)) = List.length t /\
    pi < snd (hoare v fuel t vp pi pj) <= pr - 1.
Proof.
  induction fuel as [|f IH]; intros t vp pi pj pr Hij Hf Hpj Hpr Hs; [lia|].
  cbn [hoare].
  destruct (scan_up_bound (List.length t) t vp (S pi) (pr - 1)) as [Hu1 Hu2];
    try lia; try assumption.
  pose proof (scan_down_le (List.length t) t vp (pj - 1)) as Hd.
  set (pi' := scan_up v (List.length t) t vp (S pi)) in *.
  set (pj' := scan_down v (List.length t) t vp (pj - 1)) in *.
  destruct (Nat.leb_spec pj' pi') as [Hle|Hlt]; cbn [fst snd].
  - repeat split; try reflexivity; lia.
  - destruct (IH (swap t pi' pj') vp pi' pj' pr) as (Hp & Hl & Hb);
      rewrite ?length_swap; try lia.
    { rewrite get_swap_other by lia. assumption. }
    split; [|split].
    + rewrite Hp. apply swap_perm; lia.
    + now rewrite Hl, length_swap.
    + lia.
Qed.

Lemma median3_perm (t : list nat) (pl pm pr : nat) :
  pl < List.length t -> pm < List.length t -> pr < List.length t ->
  Permutation (median3 v t pl pm pr) t /\
  List.length (median3 v t pl pm pr) = List.length t.
Proof.
  intros H1 H2 H3. unfold median3.
  set (t1 := if less v (get t pm) (get t pl) then swap t pm pl else t).
  assert (P1 : Permutation t1 t /\ List.length t1 = List.length t).
  { unfold t1. destruct (less v _ _); split; try reflexivity;
      [now apply swap_perm | apply length_swap]. }
  destruct P1 as [P1 L1]. clearbody t1.
  set (t2 := if less v (get t1 pr) (get t1 pm) then swap t1 pr pm else t1).
  assert (P2 : Permutation t2 t /\ List.length t2 = List.length t).
  { unfold t2. destruct (less v _ _); split; try assumption.
    - rewrite swap_perm; [assumption | lia | lia].
    - now rewrite length_swap. }
  destruct P2 as [P2 L2]. clearbody t2.
  destruct (less v _ _); split; try assumption.
  - rewrite swap_perm; [assumption | lia | lia].
  - now rewrite length_swap.
Qed.

Lemma partition_spec (t : list nat) (pl pr : nat) :
  pl + 2 <= pr -> pr < List.length t ->
  Permutation (fst (partition v t pl pr)) t /\
  List.length (fst (partition v t pl pr)) = List.length t /\
  pl < snd (partition v t pl pr) < pr.
Proof.
  intros H1 H2. unfold partition.
  set (pm := pl + (pr - pl) / 2).
  assert (Hpm : pl <= pm <= pr).
  { unfold pm. split; [lia|].
    assert ((pr - pl) / 2 <= pr - pl) by (apply Nat.Div0.div_le_upper_bound; lia).
    lia. }
  destruct (median3_perm t pl pm pr) as [P3 L3]; try lia.
  set (t3 := median3 v t pl pm pr) in *.
  set (vp := key v (get t3 pm)).
  set (t4 := swap t3 pm (pr - 1)).
  assert (L4 : List.length t4 = List.length t) by (unfold t4; now rewrite length_swap).
  assert (P4 : Permutation t4 t).
  { unfold t4. rewrite swap_perm; [assumption | lia | lia]. }
  destruct (hoare_spec (List.length t) t4 vp pl (pr - 1) pr) as (P5 & L5 & B5);
    try lia.
  { unfold t4, vp. rewrite get_swap_r by lia. apply Z.ltb_irrefl. }
  destruct (hoare v (List.length t) t4 vp pl (pr - 1)) as [t5 pi].
  cbn [fst snd] in *. split; [|split].
  - rewrite swap_perm; [now rewrite P5 | lia | lia].
  - now rewrite length_swap, L5.
  - lia.
Qed.

(** *** The driver uses less fuel than it is given *)

Lemma in_range_length (t t' : list nat) (stack : list frame) :
  List.length t' = List.length t ->
  Forall (in_range t) stack -> Forall (in_range t') stack.
Proof.
  intros E. apply Forall_impl. intros s. unfold in_range. now rewrite E.
Qed.

Lemma run_spec (fuel : nat) :
  forall (at_ : pc) (t : list nat) (pl pr : nat) (cdepth : Z) (stack : list frame),
    in_range t (pl, pr, cdepth) -> Forall (in_range t) stack ->
    budget at_ pl pr stack < fuel ->
    exists t', run v fuel at_ t pl pr cdepth stack = Some t' /\ Permutation t' t.
Proof.
  induction fuel as [|f IH]; intros at_ t pl pr cdepth stack Hr Hst Hb; [lia|].
  assert (Hpop : forall t1, Permutation t1 t -> List.length t1 = List.length t ->
            pending stack < f \/ stack = [] ->
            exists t', match stack with
                       | [] => Some t1
                       | (pl', pr', d) :: rest => run v f Head t1 pl' pr' d rest
                       end = Some t' /\ Permutation t' t).
  { intros t1 P1 L1 Hp. destruct stack as [|[[pl' pr'] d] rest].
    - exists t1. split; [reflexivity | assumption].
    - destruct Hp as [Hp|Hp]; [|discriminate].
      inversion Hst as [|? ? Hs Hrest]; subst.
      destruct (IH Head t1 pl' pr' d rest) as (t' & E & P).
      + unfold in_range in *. now rewrite L1.
      + now apply (in_range_length t).
      + unfold budget, pending, weight in *. cbn [fold_right fst snd] in *. lia.
      + exists t'. split; [assumption | now rewrite P]. }
  unfold in_range in Hr. cbn [fst snd] in Hr.
  unfold budget, weight in Hb. cbn [fst snd] in Hb.
  cbn [run]. destruct at_.
  - destruct (cdepth <? 0)%Z.
    + destruct (aheapsort_perm t pl (pr - pl + 1)) as [P L]; [lia|].
      apply Hpop; try assumption. left. lia.
    + apply IH; try assumption.
      unfold budget, weight. cbn [fst snd]. lia.
  - destruct (Nat.ltb_spec SMALL_QUICKSORT (pr - pl)) as [Hbig|Hsmall].
    + unfold SMALL_QUICKSORT in Hbig.
      destruct (partition_spec t pl pr) as (P & L & B); try lia.
      destruct (partition v t pl pr) as [t' pi]. cbn [fst snd] in *.
      destruct (pi - pl <? pr - pi).
      * destruct (IH Partitioning t' pl (pi - 1) (cdepth - 1)%Z
                    ((S pi, pr, (cdepth - 1)%Z) :: stack)) as (t'' & E & P'').
        -- unfold in_range. cbn [fst snd]. lia.
        -- constructor; [unfold in_range; cbn [fst snd]; lia|].
           now apply (in_range_length t).
        -- unfold budget, pending, weight in *. cbn [fold_right fst snd] in *. lia.
        -- exists t''. split; [assumption | now rewrite P''].
      * destruct (IH Partitioning t' (S pi) pr (cdepth - 1)%Z
                    ((pl, pi - 1, (cdepth - 1)%Z) :: stack)) as (t'' & E & P'').
        -- unfold in_range. cbn [fst snd]. lia.
        -- constructor; [unfold in_range; cbn [fst snd]; lia|].
           now apply (in_range_length t).
        -- unfold budget, pending, weight in *. cbn [fold_right fst snd] in *. lia.
        -- exists t''. split; [assumption | now rewrite P''].
    + destruct (insertion_perm t pl pr) as [P L]; try lia.
      apply Hpop; try assumption. left. lia.
Qed.

End Permutes.

(** [aquicksort] runs to the end and returns the positions [0..n-1] in some
    order. *)
Lemma run_enough (v : list Z) :
  exists t',
    run v (3 * List.length v + 3) Head (seq 0 (List.length v)) 0
        (List.length v - 1) (depth_limit (List.length v)) [] = Some t' /\
    Permutation t' (seq 0 (List.length v)).
Proof.
  destruct v as [|x v]; [exists []; split; reflexivity|].
  apply run_spec.
  - unfold in_range. cbn [fst snd]. rewrite length_seq. simpl. lia.
  - constructor.
  - unfold budget, weight, pending. cbn [fst snd fold_right List.length]. lia.
Qed.

Lemma aquicksort_perm (v : list Z) :
  Permutation (aquicksort v) (seq 0 (List.length v)).
Proof.
  unfold aquicksort. destruct (run_enough v) as (t' & -> & P). exact P.
Qed.

End NpyFacts.

(** ** The order of the hits *)

Lemma comes_before_map {A B : Type} (f : A -> B) (x y : A) (l : list A) :
  comes_before x y l -> comes_before (f x) (f y) (map f l).
Proof.
  intros (l1 & l2 & l3 & ->). exists (map f l1), (map f l2), (map f l3).
  rewrite map_app. simpl. rewrite map_app. reflexivity.
Qed.

Lemma comes_before_sorted {A : Type} (R : A -> A -> Prop) (x y : A) (l : list A) :
  StronglySorted R l -> comes_before x y l -> R x y.
Proof.
  intros Hs (l1 & l2 & l3 & ->). induction l1 as [|a l1 IH]; simpl in Hs.
  - inversion Hs as [|? ? _ Hall]; subst. rewrite Forall_forall in Hall.
    apply Hall. apply in_or_app. right. now left.
  - inversion Hs; subst. now apply IH.
Qed.

Lemma comes_before_total {A : Type} (x y : A) (l : list A) :
  In x l -> In y l -> x <> y -> comes_before x y l \/ comes_before y x l.
Proof.
  intros Hx Hy Hne. destruct (in_split _ _ Hx) as (l1 & l2 & ->).
  apply in_app_or in Hy. destruct Hy as [Hy|[Hy|Hy]]; [|congruence|].
  - right. destruct (in_split _ _ Hy) as (a & b & ->).
    exists a, b, l2. now rewrite <- app_assoc.
  - left. destruct (in_split _ _ Hy) as (a & b & ->). now exists l1, a, b.
Qed.

Lemma comes_before_nth {A : Type} (x y : A) (l : list A) :
  comes_before x y l ->
  exists i j, i < j /\ nth_error l i = Some x /\ nth_error l j = Some y.
Proof.
  intros (l1 & l2 & l3 & ->).
  exists (List.length l1), (List.length l1 + S (List.length l2)).
  split; [lia|]. split.
  - rewrite nth_error_app2 by lia. now rewrite Nat.sub_diag.
  - rewrite nth_error_app2 by lia.
    replace (List.length l1 + S (List.length l2) - List.length l1)
      with (S (List.length l2)) by lia.
    simpl. rewrite nth_error_app2 by lia. now rewrite Nat.sub_diag.
Qed.

Lemma take_app {A : Type} (df : list A) (i1 i2 : list nat) :
  Pandas.take df (i1 ++ i2) = Pandas.take df i1 ++ Pandas.take df i2.
Proof. unfold Pandas.take. apply flat_map_app. Qed.

Lemma take_cons {A : Type} (df : list A) (i : nat) (rest : list nat) (x : A) :
  nth_error df i = Some x ->
  Pandas.take df (i :: rest) = x :: Pandas.take df rest.
Proof. intros H. unfold Pandas.take. simpl. now rewrite H. Qed.

Lemma take_In_idx {A : Type} (df : list A) (indexer : list nat) (x : A) :
  In x (Pandas.take df indexer) ->
  exists i, In i indexer /\ nth_error df i = Some x.
Proof.
  unfold Pandas.take. rewrite in_flat_map. intros (i & Hi & Hx).
  exists i. split; [assumption|].
  destruct (nth_error df i); [|destruct Hx]. destruct Hx as [<-|[]]. reflexivity.
Qed.

Lemma take_shift {A : Type} (a : A) (df : list A) (indexer : list nat) :
  Pandas.take (a :: df) (map S indexer) = Pandas.take df indexer.
Proof.
  unfold Pandas.take. induction indexer as [|i l IH]; simpl; [reflexivity|].
  now rewrite IH.
Qed.

Lemma take_all {A : Type} (df : list A) :
  Pandas.take df (seq 0 (List.length df)) = df.
Proof.
  induction df as [|a df IH]; [reflexivity|].
  cbn [List.length seq]. rewrite (take_cons (a :: df) 0 _ a eq_refl).
  rewrite <- seq_shift, take_shift, IH. reflexivity.
Qed.

Lemma take_perm {A : Type} (df : list A) (indexer : list nat) :
  Permutation indexer (seq 0 (List.length df)) ->
  Permutation (Pandas.take df indexer) df.
Proof.
  intros H. rewrite <- (take_all df) at 2.
  unfold Pandas.take. now apply Permutation_flat_map.
Qed.

Lemma key_nth {A : Type} (by_ : A -> Z) (df : list A) (i : nat) (x : A) :
  nth_error df i = Some x -> nth i (map by_ df) 0%Z = by_ x.
Proof.
  intros H. apply nth_error_nth. rewrite nth_error_map, H. reflexivity.
Qed.

Lemma take_sorted_desc {A : Type} (by_ : A -> Z) (df : list A) (indexer : list nat) :
  StronglySorted (stable_desc (map by_ df)) indexer ->
  StronglySorted (fun a b => (by_ b <= by_ a)%Z) (Pandas.take df indexer).
Proof.
  induction 1 as [|i l Hs IH Hall].
  - constructor.
  - unfold Pandas.take. cbn [flat_map].
    destruct (nth_error df i) as [x|] eqn:E; [|exact IH].
    cbn [app]. constructor; [exact IH|].
    rewrite Forall_forall in *. intros y Hy.
    apply take_In_idx in Hy. destruct Hy as (j & Hj & Ey).
    specialize (Hall j Hj). unfold stable_desc in Hall.
    rewrite (key_nth by_ _ _ _ E), (key_nth by_ _ _ _ Ey) in Hall. lia.
Qed.

Lemma take_stable {A : Type} (by_ : A -> Z) (df : list A) (indexer : list nat)
    (x y : A) :
  Permutation indexer (seq 0 (List.length df)) ->
  StronglySorted (stable_desc (map by_ df)) indexer ->
  comes_before x y df -> by_ x = by_ y ->
  comes_before x y (Pandas.take df indexer).
Proof.
  intros indexer_perm indexer_sorted Hb Heq. apply comes_before_nth in Hb.
  destruct Hb as (i & j & Hij & Ei & Ej).
  assert (Hi : In i indexer).
  { apply (Permutation_in _ (Permutation_sym indexer_perm)), in_seq.
    assert (i < List.length df) by (apply nth_error_Some; congruence). lia. }
  assert (Hj : In j indexer).
  { apply (Permutation_in _ (Permutation_sym indexer_perm)), in_seq.
    assert (j < List.length df) by (apply nth_error_Some; congruence). lia. }
  destruct (comes_before_total i j indexer Hi Hj) as [H|H]; [lia| |].
  - destruct H as (l1 & l2 & l3 & E).
    exists (Pandas.take df l1), (Pandas.take df l2), (Pandas.take df l3).
    rewrite E, take_app, (take_cons _ _ _ _ Ei), take_app, (take_cons _ _ _ _ Ej).
    reflexivity.
  - apply (comes_before_sorted _ _ _ _ indexer_sorted) in H. unfold stable_desc in H.
    rewrite (key_nth by_ _ _ _ Ei), (key_nth by_ _ _ _ Ej) in H. lia.
Qed.

Lemma StronglySorted_map {A B : Type} (R : B -> B -> Prop) (f : A -> B) (l : list A) :
  StronglySorted (fun a b => R (f a) (f b)) l -> StronglySorted R (map f l).
Proof.
  induction 1 as [|a l Hs IH Hall]; simpl; constructor; auto.
  rewrite Forall_forall in *. intros y Hy. apply in_map_iff in Hy.
  destruct Hy as (b & <- & Hb). now apply Hall.
Qed.

Lemma StronglySorted_weaken {A : Type} (R R' : A -> A -> Prop) (l : list A) :
  (forall a b, In a l -> In b l -> R a b -> R' a b) ->
  StronglySorted R l -> StronglySorted R' l.
Proof.
  intros Himp Hs. induction Hs as [|a l Hs IH Hall]; constructor.
  - apply IH. intros x y Hx Hy. apply Himp; now right.
  - rewrite Forall_forall in *. intros y Hy.
    apply Himp; [now left | now right | now apply Hall].
Qed.

Lemma NoDup_map_in {A B : Type} (f : A -> B) (l : list A) :
  (forall a b, In a l -> In b l -> f a = f b -> a = b) ->
  NoDup l -> NoDup (map f l).
Proof.
  intros Hinj Hnd. induction Hnd as [|a l Hna Hnd IH]; simpl; constructor.
  - rewrite in_map_iff. intros (b & Hb & Hin). apply Hna.
    rewrite (Hinj a b); [assumption | now left | now right | now symmetry].
  - apply IH. intros x y Hx Hy. apply Hinj; now right.
Qed.

(** With at most 16 rows, this [nargsort] yields the stable descending
    order. *)
Lemma nargsort_desc_small (items : list Z) :
  List.length items <= 16 ->
  Permutation (Pandas.nargsort_desc items) (seq 0 (List.length items)) /\
  StronglySorted (stable_desc items) (Pandas.nargsort_desc items).
Proof.
  intros Hn. set (n := List.length items).
  pose proof (NpyFacts.insertion_order_spec (rev items) n) as [Hp Hs].
  assert (Hin : forall p, In p (insertion_order (rev items) n) -> p < n).
  { intros p H. apply (Permutation_in _ Hp), in_seq in H. lia. }
  assert (E : Pandas.nargsort_desc items
              = map (fun p => n - 1 - p) (insertion_order (rev items) n)).
  { unfold Pandas.nargsort_desc.
    rewrite NpyFacts.aquicksort_small by (rewrite length_rev; exact Hn).
    rewrite length_rev, map_rev, rev_involutive. fold n.
    apply map_ext_in. intros p H. apply Hin in H.
    rewrite rev_nth by (rewrite length_seq; lia).
    rewrite length_seq, seq_nth by lia. lia. }
  rewrite E. split.
  - apply NoDup_Permutation.
    + apply NoDup_map_in.
      * intros a b Ha Hb Hab. apply Hin in Ha, Hb. lia.
      * apply (Permutation_NoDup (Permutation_sym Hp)), seq_NoDup.
    + apply seq_NoDup.
    + intros x. rewrite in_map_iff, in_seq. split.
      * intros (p & <- & H). apply Hin in H. lia.
      * intros H. exists (n - 1 - x). split; [lia|].
        apply (Permutation_in _ (Permutation_sym Hp)), in_seq. lia.
  - apply StronglySorted_map.
    eapply StronglySorted_weaken; [|exact Hs].
    intros a b Ha Hb. apply Hin in Ha, Hb.
    unfold later_first, stable_desc, Npy.key.
    rewrite !rev_nth by (fold n; lia). fold n.
    replace (n - S a) with (n - 1 - a) by lia.
    replace (n - S b) with (n - 1 - b) by lia.
    intros [H|[H1 H2]]; [left; exact H | right; split; [exact H1 | lia]].
Qed.

(** Seventeen equal keys are a segment long enough to be partitioned: the
    rows come back as 1, 10, 16, 15, ..., 3, 17, counted from 1. *)
Lemma nargsort_desc_ties_17 :
  Pandas.nargsort_desc (repeat 2%Z 17)
  = [0; 9; 15; 14; 13; 12; 11; 10; 8; 1; 7; 6; 5; 4; 3; 2; 16].
Proof. vm_compute. reflexivity. Qed.

Lemma comes_before_asym {A : Type} (x y : A) (l : list A) :
  NoDup l -> comes_before y x l -> ~ comes_before x y l.
Proof.
  intros Hnd H1 H2.
  apply comes_before_nth in H1. destruct H1 as (i & j & Hij & Ei & Ej).
  apply comes_before_nth in H2. destruct H2 as (i' & j' & Hij' & Ei' & Ej').
  rewrite NoDup_nth_error in Hnd.
  assert (i = j').
  { apply Hnd; [apply nth_error_Some|]; congruence. }
  assert (j = i').
  { apply Hnd; [apply nth_error_Some|]; congruence. }
  lia.
Qed.

(** C6 as stated fails: the keyword "candi" matches eighteen places with
    relevance 2 each, and the quicksort above returns the places 3 to 17 in
    reverse order. *)
Lemma C6_counterexample :
  exists pat hits,
    Re.compile "candi" = Some pat /\
    search_place eighteen_places "candi" = Some hits /\
    map PlaceDf.Place_Id (matched eighteen_places pat)
    = [1; 2; 3; 4; 5; 6; 7; 8; 9; 10; 11; 12; 13; 14; 15; 16; 17; 18]%Z /\
    map (fun h => PlaceDf.Place_Id (place h)) hits
    = [1; 2; 17; 16; 15; 14; 13; 12; 11; 10; 9; 8; 7; 6; 5; 4; 3; 18]%Z /\
    Forall (fun h => Relevance h = 2%Z) hits /\
    exists h3 h17,
      In h3 hits /\ In h17 hits /\
      PlaceDf.Place_Id (place h3) = 3%Z /\
      PlaceDf.Place_Id (place h17) = 17%Z /\
      Relevance h3 = Relevance h17 /\
      comes_before (place h3) (place h17) (matched eighteen_places pat) /\
      ~ comes_before h3 h17 hits.
Proof.
  exists (literal "candi").
  destruct (search_place eighteen_places "candi") as [hits|] eqn:E;
    [|vm_compute in E; discriminate].
  exists hits. vm_compute in E. injection E as E.
  split; [reflexivity|]. split; [reflexivity|].
  split; [vm_compute; reflexivity|].
  assert (Hids : map (fun h => PlaceDf.Place_Id (place h)) hits
          = [1; 2; 17; 16; 15; 14; 13; 12; 11; 10; 9; 8; 7; 6; 5; 4; 3; 18]%Z).
  { subst hits. reflexivity. }
  split; [exact Hids|].
  split; [subst hits; repeat constructor|].
  assert (Hnd : NoDup hits).
  { apply (NoDup_map_inv (fun h => PlaceDf.Place_Id (place h))). rewrite Hids.
    assert (En : nodup Z.eq_dec
                   [1; 2; 17; 16; 15; 14; 13; 12; 11; 10; 9; 8; 7; 6; 5; 4; 3; 18]%Z
                 = [1; 2; 17; 16; 15; 14; 13; 12; 11; 10; 9; 8; 7; 6; 5; 4; 3; 18]%Z)
      by (vm_compute; reflexivity).
    rewrite <- En. apply NoDup_nodup. }
  exists (mk_hit (PlaceDf.mk 3 "Candi C" (Some "Situs purbakala"%string)) 2),
         (mk_hit (PlaceDf.mk 17 "Candi Q" (Some "Situs purbakala"%string)) 2).
  split; [subst hits; simpl; tauto|].
  split; [subst hits; simpl; tauto|].
  split; [reflexivity|]. split; [reflexivity|]. split; [reflexivity|].
  split.
  - exists (firstn 2 eighteen_places), (firstn 13 (skipn 3 eighteen_places)),
           (skipn 17 eighteen_places).
    vm_compute. reflexivity.
  - apply comes_before_asym; [exact Hnd|].
    clear Hnd Hids. subst hits.
    match goal with
    | |- comes_before _ _ ?l =>
        exists (firstn 2 l), (firstn 13 (skipn 3 l)), (skipn 17 l)
    end.
    reflexivity.
Qed.

(** ** What [search_place] returns, for every compiled pattern *)

Lemma map_nth_seq {A : Type} (l : list A) (d : A) :
  map (fun p => nth p l d) (seq 0 (List.length l)) = l.
Proof.
  induction l as [|a l IH]; [reflexivity|].
  cbn [List.length seq map nth]. rewrite <- seq_shift, map_map.
  cbn [nth]. now rewrite IH.
Qed.

Lemma nargsort_desc_perm (items : list Z) :
  Permutation (Pandas.nargsort_desc items) (seq 0 (List.length items)).
Proof.
  unfold Pandas.nargsort_desc.
  set (n := List.length items).
  set (f := fun p => nth p (rev (seq 0 n)) 0).
  etransitivity; [symmetry; apply Permutation_rev|].
  transitivity (map f (seq 0 n)).
  - apply Permutation_map.
    replace n with (List.length (rev items)) by apply length_rev.
    apply NpyFacts.aquicksort_perm.
  - pose proof (map_nth_seq (rev (seq 0 n)) 0) as E.
    rewrite length_rev, length_seq in E. fold f in E. rewrite E.
    symmetry. apply Permutation_rev.
Qed.

Lemma sort_values_desc_perm {A : Type} (by_ : A -> Z) (df : list A) :
  Permutation (Pandas.sort_values_desc by_ df) df.
Proof.
  unfold Pandas.sort_values_desc. apply take_perm.
  rewrite <- (length_map by_ df). apply nargsort_desc_perm.
Qed.

Lemma matched_NoDup (place_df : list PlaceDf.row) (pat : list Re.atom) :
  NoDup (matched place_df pat).
Proof. unfold matched, Pandas.drop_duplicates. apply drop_seen_NoDup. Qed.

(** The hits are the matched rows, each once, in some order. *)
Lemma search_place_returns (place_df : list PlaceDf.row) (keyword : string)
    (pat : list Re.atom) :
  Re.compile keyword = Some pat ->
  described place_df ->
  exists hits,
    search_place place_df keyword = Some hits /\
    Permutation hits
      (map (fun row => mk_hit row (relevance_score (Text.lower keyword) row))
           (matched place_df pat)) /\
    Permutation (map place hits) (matched place_df pat).
Proof.
  intros Hc Hd. rewrite search_place_unfold, Hc.
  rewrite (proj2 (object_dtype_described _) Hd).
  set (score := fun row => mk_hit row (relevance_score (Text.lower keyword) row)).
  assert (Hplace : forall l, map place (map score l) = l).
  { intros l. rewrite map_map. simpl. apply map_id. }
  destruct (matched place_df pat) as [|r rs] eqn:E.
  - exists []. repeat split; constructor.
  - exists (Pandas.sort_values_desc Relevance (map score (r :: rs))).
    split; [reflexivity|]. split.
    + apply sort_values_desc_perm.
    + rewrite <- (Hplace (r :: rs)) at 2.
      apply Permutation_map, sort_values_desc_perm.
Qed.

Lemma search_place_exact (place_df : list PlaceDf.row) (keyword : string)
    (pat : list Re.atom) :
  Re.compile keyword = Some pat ->
  described place_df ->
  exists hits,
    search_place place_df keyword = Some hits /\
    NoDup (map place hits) /\
    forall r, In r (map place hits) <->
              In r place_df /\
              (Re.search pat (PlaceDf.Place_Name r) = true \/
               exists d, PlaceDf.Description r = Some d /\ Re.search pat d = true).
Proof.
  intros Hc Hd.
  destruct (search_place_returns place_df _ _ Hc Hd) as (hits & Hs & _ & Hp).
  exists hits. split; [assumption|]. split.
  - apply (Permutation_NoDup (Permutation_sym Hp)), matched_NoDup.
  - intros r. rewrite <- matched_In. split; apply Permutation_in;
      [assumption | now apply Permutation_sym].
Qed.








(** C4, the code at a keyword that is a pattern: "." matches every place of
    the sample catalog, though no name and only one description contains a
    full stop; the score, which counts the keyword literally, is 0 for the
    other two. *)
Theorem C4_keyword_is_a_pattern :
  option_map (map (fun h => (PlaceDf.Place_Id (place h), Relevance h)))
             (search_place sample_places ".")
  = Some [(3, 1); (1, 0); (2, 0)]%Z /\
  Text.contains (Text.lower "Candi Mendut") (Text.lower ".") = false /\
  Text.contains (Text.lower "Borobudur Temple") (Text.lower ".") = false /\
  Text.contains (Text.lower "Visit Borobudur for sunrise") (Text.lower ".") = false.
Proof.
  repeat split; vm_compute; reflexivity.
Qed.

(** C8, the code at two keywords that differ in letter case only: [\d]
    selects the places with a digit, [\D] those with a character that is not
    a digit. *)
Theorem C8_case_changes_the_pattern :
  same_up_to_case "\d" "\D" /\
  option_map (map (fun h => (PlaceDf.Place_Id (place h), Relevance h)))
             (search_place sample_places "\d")
  = Some [(3, 0)]%Z /\
  option_map (map (fun h => (PlaceDf.Place_Id (place h), Relevance h)))
             (search_place sample_places "\D")
  = Some [(1, 0); (2, 0); (3, 0)]%Z /\
  search_place sample_places "\d" <> search_place sample_places "\D".
Proof.
  split; [reflexivity|]. split; [vm_compute; reflexivity|].
  split; [vm_compute; reflexivity|].
  intros E. apply (f_equal (option_map (@List.length hit))) in E.
  vm_compute in E. discriminate.
Qed.

(** * Further properties of the code *)

(** ** More on [recommend_places] *)

Lemma first_row_lookup (place_df : list PlaceDf.row) (p : Z) (name : string) :
  Pandas.values0
    (map PlaceDf.Place_Name
         (filter (fun r => (PlaceDf.Place_Id r =? p)%Z) place_df)) = Some name ->
  exists r, first_row_with place_df p r /\ PlaceDf.Place_Name r = name.
Proof.
  induction place_df as [|r0 df IH]; [discriminate|].
  cbn [filter]. destruct (Z.eqb_spec (PlaceDf.Place_Id r0) p) as [E|E].
  - cbn. intros H. injection H as <-. exists r0. split; [|reflexivity].
    exists [], df. repeat split; [assumption | intros r' []].
  - intros H. destruct (IH H) as (r & (l1 & l2 & -> & Hid & Hfirst) & Hn).
    exists r. split; [|assumption].
    exists (r0 :: l1), l2. repeat split; [assumption|].
    intros r' [<-|Hr']; [assumption | now apply Hfirst].
Qed.

(** The list the loop of [recommend_places] builds: one entry for each
    candidate, in catalog order, with the estimate of the model and the name
    of the first catalog row of the place. *)
Lemma predict_all_entries (place_df : list PlaceDf.row)
    (model_predict : Z -> Z -> Q) (u : Z) (todo : list Z) :
  (forall p, In p todo -> In p (all_places place_df)) ->
  exists l,
    predict_all place_df model_predict u todo = Some l /\
    map place_of l = todo /\
    Forall (fun x =>
              est_rating x = model_predict u (place_of x) /\
              exists r, first_row_with place_df (place_of x) r /\
                        PlaceDf.Place_Name r = name_of x) l.
Proof.
  induction todo as [|p todo IH]; intros Hin; cbn [predict_all].
  - exists []. repeat split; constructor.
  - destruct (lookup_name_nonempty place_df p) as [name Hname]; [apply Hin; now left|].
    rewrite Hname.
    destruct IH as (l & Hl & Hmap & Hall); [intros; apply Hin; now right|].
    rewrite Hl. cbn [option_map].
    exists ((p, name, predict_rating model_predict u p) :: l).
    split; [reflexivity|]. split; [cbn; now rewrite Hmap|].
    constructor; [|assumption]. split; [reflexivity|].
    now apply first_row_lookup.
Qed.

Lemma recommend_places_ranked (rating_df : list RatingDf.row)
    (place_df : list PlaceDf.row) (model_predict : Z -> Z -> Q) (u : Z) :
  exists l,
    predict_all place_df model_predict u (unrated rating_df place_df u) = Some l /\
    map place_of l = unrated rating_df place_df u /\
    Forall (fun x =>
              est_rating x = model_predict u (place_of x) /\
              exists r, first_row_with place_df (place_of x) r /\
                        PlaceDf.Place_Name r = name_of x) l /\
    forall top_n,
      recommend_places rating_df place_df model_predict u top_n
      = Some (slice_to (sort_reverse l) top_n).
Proof.
  destruct (predict_all_entries place_df model_predict u
              (unrated rating_df place_df u)) as (l & Hl & Hmap & Hall).
  { intros p Hp. apply unrated_spec in Hp. tauto. }
  exists l. repeat split; try assumption.
  intros top_n. unfold recommend_places. now rewrite Hl.
Qed.

(** X1: asking for more places never changes the places already shown: for
    [0 <= n <= m] the answer for [n] is the first [n] entries of the answer
    for [m]. *)
Theorem X1_recommend_places_prefix (rating_df : list RatingDf.row)
    (place_df : list PlaceDf.row) (model_predict : Z -> Z -> Q) (u n m : Z) :
  (0 <= n)%Z -> (n <= m)%Z ->
  exists short long,
    recommend_places rating_df place_df model_predict u n = Some short /\
    recommend_places rating_df place_df model_predict u m = Some long /\
    short = firstn (Z.to_nat n) long.
Proof.
  intros Hn Hm.
  destruct (recommend_places_ranked rating_df place_df model_predict u)
    as (l & _ & _ & _ & Hrec).
  exists (slice_to (sort_reverse l) n), (slice_to (sort_reverse l) m).
  split; [apply Hrec|]. split; [apply Hrec|].
  unfold slice_to.
  destruct (Z.leb_spec 0 n); [|lia]. destruct (Z.leb_spec 0 m); [|lia].
  rewrite firstn_firstn. f_equal. lia.
Qed.

Lemma X1_recommend_places_prefix_witness :
  exists short long,
    recommend_places sample_ratings sample_places sample_model 7 1 = Some short /\
    recommend_places sample_ratings sample_places sample_model 7 3 = Some long /\
    short = firstn 1 long.
Proof.
  apply (X1_recommend_places_prefix sample_ratings sample_places sample_model
           7 1 3); lia.
Defined.



Lemma comes_before_In {A : Type} (x y : A) (l : list A) :
  comes_before x y l <-> exists l1 l2, l = l1 ++ x :: l2 /\ In y l2.
Proof.
  split.
  - intros (l1 & l2 & l3 & ->). exists l1, (l2 ++ y :: l3). split; [reflexivity|].
    apply in_or_app. right. now left.
  - intros (l1 & l2 & -> & Hy). destruct (in_split _ _ Hy) as (a & b & ->).
    now exists l1, a, b.
Qed.

Lemma comes_before_insert {A : Type} (x y a : A) (s1 s2 : list A) :
  comes_before x y (s1 ++ s2) -> comes_before x y (s1 ++ a :: s2).
Proof.
  rewrite !comes_before_In. intros (l1 & l2 & E & Hy).
  apply app_eq_app in E. destruct E as (l' & [[-> E]|[-> ->]]).
  - destruct l' as [|z l'']; cbn in E.
    + subst s2. exists (l1 ++ [a]), l2. rewrite app_nil_r, <- app_assoc.
      split; [reflexivity | assumption].
    + injection E as <- ->. exists l1, (l'' ++ a :: s2).
      rewrite <- app_assoc. split; [reflexivity|].
      apply in_app_or in Hy. apply in_or_app.
      destruct Hy; [now left | right; now right].
  - exists (s1 ++ a :: l'), l2. rewrite <- app_assoc. split; [reflexivity | assumption].
Qed.

Lemma comes_before_filter {A : Type} (f : A -> bool) (x y : A) (l : list A) :
  comes_before x y l -> f x = true -> f y = true ->
  comes_before x y (filter f l).
Proof.
  intros (l1 & l2 & l3 & ->) Hx Hy.
  exists (filter f l1), (filter f l2), (filter f l3).
  rewrite filter_app. cbn [filter]. rewrite Hx, filter_app. cbn [filter].
  now rewrite Hy.
Qed.

Lemma comes_before_map_inv {A B : Type} (f : A -> B) (a b : B) (l : list A) :
  comes_before a b (map f l) ->
  exists x y, f x = a /\ f y = b /\ comes_before x y l.
Proof.
  intros (m1 & m2 & m3 & E).
  apply map_eq_app in E. destruct E as (l1 & r1 & -> & <- & E).
  apply map_eq_cons in E. destruct E as (x & r2 & -> & Hx & E).
  apply map_eq_app in E. destruct E as (l2 & r3 & -> & <- & E).
  apply map_eq_cons in E. destruct E as (y & l3 & -> & Hy & <-).
  exists x, y. repeat split; try assumption. now exists l1, l2, l3.
Qed.

Lemma comes_before_firstn {A : Type} (x y : A) (n : nat) (l : list A) :
  NoDup l -> comes_before x y l -> In y (firstn n l) ->
  comes_before x y (firstn n l).
Proof.
  intros Hnd (l1 & l2 & l3 & ->) Hy.
  assert (E : l1 ++ x :: l2 ++ y :: l3 = (l1 ++ x :: l2) ++ y :: l3).
  { rewrite <- app_assoc. reflexivity. }
  rewrite E in *. clear E.
  set (pre := l1 ++ x :: l2) in *.
  rewrite firstn_app in *.
  destruct (Nat.le_gt_cases n (List.length pre)) as [Hle|Hgt].
  - exfalso. replace (n - List.length pre) with 0 in Hy by lia.
    cbn [firstn] in Hy. rewrite app_nil_r in Hy. apply firstn_In in Hy.
    apply NoDup_remove_2 in Hnd. apply Hnd. apply in_or_app. now left.
  - exists l1, l2, (firstn (n - S (List.length pre)) l3).
    rewrite firstn_all2 by lia.
    replace (n - List.length pre) with (S (n - S (List.length pre))) by lia.
    cbn [firstn]. unfold pre. rewrite <- app_assoc. reflexivity.
Qed.

Lemma insert_desc_split (a : prediction) (s : list prediction) :
  exists s1 s2,
    s = s1 ++ s2 /\ insert_desc a s = s1 ++ a :: s2 /\
    Forall (fun z => (est_rating a < est_rating z)%Q) s1.
Proof.
  induction s as [|z s (s1 & s2 & E & Ei & Hall)]; cbn [insert_desc].
  - exists [], []. repeat split. constructor.
  - destruct (Qle_bool (est_rating z) (est_rating a)) eqn:Hle.
    + exists [], (z :: s). repeat split. constructor.
    + exists (z :: s1), s2. rewrite E at 1. rewrite Ei. repeat split.
      constructor; [|assumption].
      apply Qnot_le_lt. intros H. apply Qle_bool_iff in H. congruence.
Qed.

(** The sort keeps an entry before every later entry that is not rated
    higher. *)
Lemma sort_reverse_stable (x y : prediction) (l : list prediction) :
  comes_before x y l -> (est_rating y <= est_rating x)%Q ->
  comes_before x y (sort_reverse l).
Proof.
  intros Hb Hle. induction l as [|a l IH].
  - destruct Hb as (l1 & l2 & l3 & E). destruct l1; discriminate.
  - cbn [sort_reverse fold_right]. fold (sort_reverse l).
    destruct (insert_desc_split a (sort_reverse l)) as (s1 & s2 & E & Ei & Hall).
    rewrite Ei.
    destruct Hb as (l1 & l2 & l3 & Eb). destruct l1 as [|b l1]; cbn in Eb.
    + injection Eb as <- ->.
      assert (Hy : In y (s1 ++ s2)).
      { rewrite <- E.
        apply (Permutation_in _ (Permutation_sym (sort_reverse_perm _))).
        apply in_or_app. right. now left. }
      apply comes_before_In. exists s1, s2. split; [reflexivity|].
      apply in_app_or in Hy. destruct Hy as [Hy|Hy]; [|assumption].
      rewrite Forall_forall in Hall. specialize (Hall y Hy).
      exfalso. apply (Qlt_not_le _ _ Hall). assumption.
    + injection Eb as <- ->. apply comes_before_insert. rewrite <- E.
      apply IH. now exists l1, l2, l3.
Qed.

Lemma slice_to_firstn {A : Type} (l : list A) (stop : Z) :
  exists k, slice_to l stop = firstn k l.
Proof. unfold slice_to. destruct (0 <=? stop)%Z; eauto. Qed.

(** X3: with unique place ids in the catalog, two recommended places with the
    same estimated rating come in catalog order: the sort is stable and the
    candidates are listed in catalog order. *)
Theorem X3_recommend_places_ties (rating_df : list RatingDf.row)
    (place_df : list PlaceDf.row) (model_predict : Z -> Z -> Q) (u top_n : Z)
    (res : list prediction) (x y : prediction) :
  NoDup (all_places place_df) ->
  recommend_places rating_df place_df model_predict u top_n = Some res ->
  In x res -> In y res ->
  (est_rating x == est_rating y)%Q ->
  comes_before (place_of x) (place_of y) (all_places place_df) ->
  comes_before x y res.
Proof.
  intros Hnd Hrec Hx Hy Heq Hb.
  destruct (recommend_places_ranked rating_df place_df model_predict u)
    as (l & _ & Hmap & _ & Hr).
  rewrite Hr in Hrec. injection Hrec as <-.
  destruct (slice_to_firstn (sort_reverse l) top_n) as [k Ek]. rewrite Ek in *.
  assert (Hndu : NoDup (map place_of l)).
  { rewrite Hmap. now apply NoDup_filter. }
  assert (Hxl : In x l).
  { apply (Permutation_in _ (sort_reverse_perm l)). eapply firstn_In; eauto. }
  assert (Hyl : In y l).
  { apply (Permutation_in _ (sort_reverse_perm l)). eapply firstn_In; eauto. }
  assert (Hinj : forall a b, In a l -> In b l -> place_of a = place_of b -> a = b).
  { clear -Hndu. induction l as [|c l IH]; intros a b Ha Hb' E; [destruct Ha|].
    inversion Hndu as [|? ? Hn Hnd']; subst.
    destruct Ha as [<-|Ha], Hb' as [<-|Hb'']; auto.
    - exfalso. apply Hn. rewrite E. now apply in_map.
    - exfalso. apply Hn. rewrite <- E. now apply in_map. }
  assert (Hbl : comes_before x y l).
  { assert (Hbu : comes_before (place_of x) (place_of y) (map place_of l)).
    { rewrite Hmap. apply comes_before_filter; [assumption| |].
      - assert (H : In (place_of x) (unrated rating_df place_df u))
          by (rewrite <- Hmap; now apply in_map).
        apply filter_In in H. tauto.
      - assert (H : In (place_of y) (unrated rating_df place_df u))
          by (rewrite <- Hmap; now apply in_map).
        apply filter_In in H. tauto. }
    apply comes_before_map_inv in Hbu.
    destruct Hbu as (x' & y' & Ex & Ey & Hb').
    assert (Hx' : In x' l).
    { destruct Hb' as (a & b & c & ->). apply in_or_app. right. now left. }
    assert (Hy' : In y' l).
    { destruct Hb' as (a & b & c & ->). apply in_or_app. right. right.
      apply in_or_app. right. now left. }
    rewrite <- (Hinj x' x), <- (Hinj y' y); auto. }
  apply comes_before_firstn; [| |assumption].
  - apply (Permutation_NoDup (Permutation_sym (sort_reverse_perm l))).
    eapply NoDup_map_inv; eauto.
  - apply sort_reverse_stable; [assumption|].
    apply Qle_lteq. right. now symmetry.
Qed.

(** X4: the name in every recommended entry is the name of the first catalog
    row that carries the place id of the entry. *)
Theorem X4_recommend_places_names (rating_df : list RatingDf.row)
    (place_df : list PlaceDf.row) (model_predict : Z -> Z -> Q) (u top_n : Z)
    (res : list prediction) (x : prediction) :
  recommend_places rating_df place_df model_predict u top_n = Some res ->
  In x res ->
  exists r, first_row_with place_df (place_of x) r /\
            PlaceDf.Place_Name r = name_of x.
Proof.
  intros Hrec Hx.
  destruct (recommend_places_ranked rating_df place_df model_predict u)
    as (l & _ & _ & Hall & Hr).
  rewrite Hr in Hrec. injection Hrec as <-.
  apply slice_to_In in Hx.
  apply (Permutation_in _ (sort_reverse_perm l)) in Hx.
  rewrite Forall_forall in Hall. now apply Hall.
Qed.

(** X5: a user id without any rating row is recommended every place of the
    catalog when [top_n] is at least the catalog size. *)
Theorem X5_recommend_places_unknown_user (rating_df : list RatingDf.row)
    (place_df : list PlaceDf.row) (model_predict : Z -> Z -> Q) (u top_n : Z) :
  (forall r, In r rating_df -> RatingDf.User_Id r <> u) ->
  (Z.of_nat (List.length place_df) <= top_n)%Z ->
  exists res,
    recommend_places rating_df place_df model_predict u top_n = Some res /\
    Permutation (map place_of res) (all_places place_df) /\
    List.length res = List.length place_df.
Proof.
  intros Hu Hn.
  destruct (recommend_places_ranked rating_df place_df model_predict u)
    as (l & _ & Hmap & _ & Hr).
  assert (Hrated : rated_places rating_df u = []).
  { unfold rated_places. clear -Hu.
    induction rating_df as [|r df IH]; [reflexivity|]. cbn [filter].
    destruct (Z.eqb_spec (RatingDf.User_Id r) u) as [E|E].
    - exfalso. apply (Hu r); [now left | assumption].
    - apply IH. intros r' Hr'. apply Hu. now right. }
  assert (Hun : unrated rating_df place_df u = all_places place_df).
  { unfold unrated. rewrite Hrated. cbn [existsb negb].
    induction (all_places place_df) as [|p ps IH]; [reflexivity|].
    cbn [filter]. now rewrite IH. }
  rewrite Hun in Hmap.
  assert (Hlen : List.length (sort_reverse l) = List.length place_df).
  { rewrite (Permutation_length (sort_reverse_perm l)).
    rewrite <- (length_map place_of), Hmap. unfold all_places. apply length_map. }
  exists (slice_to (sort_reverse l) top_n). split; [apply Hr|].
  rewrite slice_to_all by lia. split.
  - rewrite <- Hmap. apply Permutation_map, sort_reverse_perm.
  - exact Hlen.
Qed.

Lemma X3_recommend_places_ties_witness :
  comes_before (1%Z, "Borobudur Temple"%string, 3%Q)
               (2%Z, "Candi Mendut"%string, 3%Q)
               [ (1%Z, "Borobudur Temple"%string, 3%Q);
                 (2%Z, "Candi Mendut"%string, 3%Q);
                 (3%Z, "Hutan Pinus 7"%string, 3%Q) ].
Proof.
  apply (X3_recommend_places_ties sample_ratings sample_places
           (fun _ _ => 3%Q) 7 3).
  - repeat constructor; simpl; intuition discriminate.
  - reflexivity.
  - simpl; tauto.
  - simpl; tauto.
  - reflexivity.
  - exists [], [], [3%Z]. reflexivity.
Defined.

Lemma X4_recommend_places_names_witness :
  exists r, first_row_with sample_places 3 r /\
            PlaceDf.Place_Name r = "Hutan Pinus 7"%string.
Proof.
  apply (X4_recommend_places_names sample_ratings sample_places sample_model
           7 1 [(3%Z, "Hutan Pinus 7"%string, inject_Z 3)]
           (3%Z, "Hutan Pinus 7"%string, inject_Z 3)).
  - reflexivity.
  - now left.
Defined.

Lemma X5_recommend_places_unknown_user_witness :
  exists res,
    recommend_places sample_ratings sample_places sample_model 7 3 = Some res /\
    Permutation (map place_of res) (all_places sample_places) /\
    List.length res = List.length sample_places.
Proof.
  apply (X5_recommend_places_unknown_user sample_ratings sample_places
           sample_model 7 3).
  - intros r Hr. simpl in Hr.
    repeat (destruct Hr as [<-|Hr]; [discriminate|]). destruct Hr.
  - simpl. lia.
Defined.

(** ** Ratings and reviews of a place *)

Lemma sum_bounds (lo hi : Z) (xs : list Z) :
  Forall (fun x => (lo <= x <= hi)%Z) xs ->
  (lo * Z.of_nat (List.length xs) <= fold_right Z.add 0 xs
   <= hi * Z.of_nat (List.length xs))%Z.
Proof.
  induction 1 as [|x xs Hx _ IH]; cbn [fold_right List.length]; [lia|].
  rewrite Nat2Z.inj_succ. lia.
Qed.

(** X6: when every rating value of the table lies between [lo] and [hi], so
    does every average rating the page shows. *)
Theorem X6_avg_rating_bounds (rating_df : list RatingDf.row)
    (place_name : string) (lo hi : Z) (q : Q) :
  (forall r, In r rating_df -> (lo <= RatingDf.Place_Rating r <= hi)%Z) ->
  avg_rating rating_df place_name = Some q ->
  (inject_Z lo <= q)%Q /\ (q <= inject_Z hi)%Q.
Proof.
  intros Hall Hq. unfold avg_rating in Hq.
  set (xs := map RatingDf.Place_Rating _) in Hq.
  assert (Hxs : Forall (fun x => (lo <= x <= hi)%Z) xs).
  { apply Forall_forall. intros x Hx. unfold xs in Hx.
    apply in_map_iff in Hx. destruct Hx as (r & <- & Hr).
    apply filter_In in Hr. apply Hall. tauto. }
  pose proof (sum_bounds lo hi xs Hxs) as Hb.
  destruct xs as [|x xs']; [discriminate|].
  cbn [Pandas.mean] in Hq. injection Hq as <-.
  unfold Qle, inject_Z. cbn [Qnum Qden].
  match goal with
  | |- context [Z.pos ?p] =>
      replace (Z.pos p) with (Z.of_nat (S (List.length xs')))
        by (symmetry; exact (Zpos_of_nat_succ (List.length xs')))
  end.
  change (List.length (x :: xs')) with (S (List.length xs')) in Hb.
  cbn [fold_right] in Hb. lia.
Qed.

Lemma X6_avg_rating_bounds_witness :
  (inject_Z 1 <= 12 # 3)%Q /\ (12 # 3 <= inject_Z 5)%Q.
Proof.
  apply (X6_avg_rating_bounds sample_ratings "Candi Mendut" 1 5).
  - intros r Hr. simpl in Hr.
    repeat (destruct Hr as [<-|Hr]; [simpl; lia|]). destruct Hr.
  - reflexivity.
Defined.

Lemma merge_left_block (user_df : list UserDf.row) (r : RatingDf.row) :
  let block :=
    match filter (fun u => (UserDf.User_Id u =? RatingDf.User_Id r)%Z) user_df with
    | [] => [mk_review r None]
    | u :: us => map (fun u' => mk_review r (Some u')) (u :: us)
    end in
  block <> [] /\
  forall rv, In rv block ->
    rated rv = r /\
    match by_user rv with
    | Some u => In u user_df /\ UserDf.User_Id u = RatingDf.User_Id r
    | None => forall u, In u user_df -> UserDf.User_Id u <> RatingDf.User_Id r
    end.
Proof.
  cbv zeta.
  destruct (filter _ user_df) as [|u us] eqn:E.
  - split; [discriminate|]. intros rv [<-|[]]. split; [reflexivity|]. cbn.
    intros u Hu Hid.
    assert (H : In u (filter (fun u => (UserDf.User_Id u =? RatingDf.User_Id r)%Z)
                             user_df)).
    { apply filter_In. split; [assumption | now apply Z.eqb_eq]. }
    rewrite E in H. destruct H.
  - split; [discriminate|]. intros rv Hrv. apply in_map_iff in Hrv.
    destruct Hrv as (u' & <- & Hu'). split; [reflexivity|]. cbn.
    rewrite <- E in Hu'. apply filter_In in Hu'. destruct Hu' as [H1 H2].
    split; [assumption | now apply Z.eqb_eq].
Qed.

Lemma reviews_join (rating_df : list RatingDf.row)
    (user_df : list UserDf.row) (place_name : string) :
  (forall rv, In rv (get_reviews_for_place rating_df user_df place_name) ->
     In (rated rv) (ratings_named rating_df place_name) /\
     match by_user rv with
     | Some u => In u user_df /\ UserDf.User_Id u = RatingDf.User_Id (rated rv)
     | None => forall u, In u user_df ->
                         UserDf.User_Id u <> RatingDf.User_Id (rated rv)
     end) /\
  (forall r, In r (ratings_named rating_df place_name) ->
     exists rv, In rv (get_reviews_for_place rating_df user_df place_name) /\
                rated rv = r).
Proof.
  unfold get_reviews_for_place, merge_left, ratings_named. split.
  - intros rv Hrv. apply filter_In in Hrv. destruct Hrv as [Hin Hname].
    apply in_flat_map in Hin. destruct Hin as (r & Hr & Hb).
    destruct (merge_left_block user_df r) as [_ Hblock].
    destruct (Hblock rv Hb) as [Er Hu]. rewrite Er in *. split; [|assumption].
    apply filter_In. split; assumption.
  - intros r Hr. apply filter_In in Hr. destruct Hr as [Hr Hname].
    destruct (merge_left_block user_df r) as [Hne Hblock]. cbv zeta in *.
    set (block := match filter _ user_df with [] => _ | _ :: _ => _ end) in *.
    destruct block as [|rv block'] eqn:Eb; [congruence|].
    exists rv. destruct (Hblock rv (or_introl eq_refl)) as [Er _].
    split; [|assumption]. apply filter_In. split.
    + apply in_flat_map. exists r. split; [assumption|].
      fold block. rewrite Eb. now left.
    + now rewrite Er.
Qed.

Lemma reviews_length (rating_df : list RatingDf.row) (user_df : list UserDf.row)
    (place_name : string) :
  List.length (ratings_named rating_df place_name)
  <= List.length (get_reviews_for_place rating_df user_df place_name).
Proof.
  unfold get_reviews_for_place, merge_left, ratings_named.
  induction rating_df as [|r df IH]; [cbn; lia|].
  cbn [flat_map filter]. rewrite filter_app, length_app.
  destruct (merge_left_block user_df r) as [Hne Hblock]. cbv zeta in *.
  set (block := match filter _ user_df with [] => _ | _ :: _ => _ end) in *.
  destruct (String.eqb (Text.lower (RatingDf.Place_Name r))
                       (Text.lower place_name)) eqn:E; [|lia].
  destruct block as [|rv block']; [congruence|].
  destruct (Hblock rv (or_introl eq_refl)) as [Er _].
  cbn [filter]. rewrite Er, E. cbn [List.length]. lia.
Qed.

(** X7: the reviews of a place are a left join: every review pairs a rating
    of that place name (up to case) with a user row of the same user id, or
    with no user when the table of users has none with that id; no such
    rating is left out, so there are at least as many reviews as ratings. *)
Theorem X7_reviews_join (rating_df : list RatingDf.row)
    (user_df : list UserDf.row) (place_name : string) :
  (forall rv, In rv (get_reviews_for_place rating_df user_df place_name) ->
     In (rated rv) (ratings_named rating_df place_name) /\
     match by_user rv with
     | Some u => In u user_df /\ UserDf.User_Id u = RatingDf.User_Id (rated rv)
     | None => forall u, In u user_df ->
                         UserDf.User_Id u <> RatingDf.User_Id (rated rv)
     end) /\
  (forall r, In r (ratings_named rating_df place_name) ->
     exists rv, In rv (get_reviews_for_place rating_df user_df place_name) /\
                rated rv = r) /\
  List.length (ratings_named rating_df place_name)
  <= List.length (get_reviews_for_place rating_df user_df place_name).
Proof.
  destruct (reviews_join rating_df user_df place_name) as [Hsound Hcompl].
  split; [exact Hsound|]. split; [exact Hcompl|]. apply reviews_length.
Qed.

Lemma filter_one (user_df : list UserDf.row) (id : Z) :
  NoDup (map UserDf.User_Id user_df) ->
  (List.length (filter (fun u => (UserDf.User_Id u =? id)%Z) user_df) <= 1)%nat.
Proof.
  induction user_df as [|u df IH]; intros Hnd; [cbn; lia|].
  inversion Hnd as [|? ? Hn Hnd']; subst. cbn [filter].
  destruct (Z.eqb_spec (UserDf.User_Id u) id) as [E|E]; [|now apply IH].
  assert (Hnone : filter (fun u => (UserDf.User_Id u =? id)%Z) df = []).
  { destruct (filter _ df) as [|u' us] eqn:Ef; [reflexivity|]. exfalso.
    assert (H : In u' (filter (fun u => (UserDf.User_Id u =? id)%Z) df))
      by (rewrite Ef; now left).
    apply filter_In in H. destruct H as [H1 H2]. apply Z.eqb_eq in H2.
    apply Hn. rewrite E, <- H2. now apply in_map. }
  rewrite Hnone. cbn. lia.
Qed.

(** X8: with unique user ids in the table of users, the reviews of a place
    are its ratings, one review for each rating and in the order of the
    rating table. *)
Theorem X8_reviews_one_per_rating (rating_df : list RatingDf.row)
    (user_df : list UserDf.row) (place_name : string) :
  NoDup (map UserDf.User_Id user_df) ->
  map rated (get_reviews_for_place rating_df user_df place_name)
  = ratings_named rating_df place_name.
Proof.
  intros Hnd. unfold get_reviews_for_place, merge_left, ratings_named.
  induction rating_df as [|r df IH]; [reflexivity|].
  cbn [flat_map filter]. rewrite filter_app, map_app, IH.
  pose proof (filter_one user_df (RatingDf.User_Id r) Hnd) as Hone.
  destruct (filter (fun u => (UserDf.User_Id u =? RatingDf.User_Id r)%Z) user_df)
    as [|u [|u' us]]; cbn in Hone; try lia;
    cbn [map filter rated];
    destruct (String.eqb _ _); reflexivity.
Qed.

Lemma X8_reviews_one_per_rating_witness :
  map rated (get_reviews_for_place sample_ratings sample_users "candi mendut")
  = ratings_named sample_ratings "candi mendut".
Proof.
  apply (X8_reviews_one_per_rating sample_ratings sample_users "candi mendut").
  repeat constructor; simpl; intuition discriminate.
Defined.


(** ** The highlighted description *)

Lemma without_asterisks_app (a b : string) :
  without_asterisks (a ++ b) = (without_asterisks a ++ without_asterisks b)%string.
Proof.
  induction a as [|c a IH]; cbn; [reflexivity|].
  destruct (Ascii.eqb c "*"); cbn; now rewrite IH.
Qed.

Lemma append_empty_r (s : string) : (s ++ EmptyString)%string = s.
Proof. induction s; cbn; congruence. Qed.

Lemma without_asterisks_emphasis (m : string) :
  without_asterisks (emphasis m) = without_asterisks m.
Proof.
  unfold emphasis. cbn. rewrite without_asterisks_app. cbn.
  apply append_empty_r.
Qed.

Lemma take_after (n : nat) (s : string) :
  (substring 0 n s ++ after n s)%string = s.
Proof.
  revert n. induction s as [|c s IH]; intros [|n]; cbn; try reflexivity.
  now rewrite IH.
Qed.

Lemma sub_from_without_asterisks (pat : list Re.atom) (s : string) :
  forall skip,
    without_asterisks (sub_from skip pat emphasis s)
    = without_asterisks (after skip s).
Proof.
  induction s as [|c s IH]; intros skip.
  - destruct skip; cbn [sub_from after]; [|reflexivity].
    destruct pat; [apply without_asterisks_emphasis | reflexivity].
  - destruct skip as [|k]; [|cbn [sub_from after]; apply IH].
    cbn [sub_from after].
    destruct (Re.match_here pat (String c s)).
    + destruct (List.length pat) as [|n].
      * rewrite without_asterisks_app, without_asterisks_emphasis. cbn.
        destruct (Ascii.eqb c "*"); now rewrite (IH 0).
      * rewrite without_asterisks_app, without_asterisks_emphasis, IH.
        rewrite <- without_asterisks_app. cbn [substring].
        change (String c (substring 0 n s) ++ after n s)%string
          with (String c (substring 0 n s ++ after n s)).
        now rewrite take_after.
    + cbn. destruct (Ascii.eqb c "*"); now rewrite (IH 0).
Qed.

(** X10: highlighting adds asterisks and nothing else: the highlighted text
    and the description are the same text once the asterisks are taken out
    of both. *)
Theorem X10_highlight_adds_asterisks_only (search_query desc md : string) :
  highlighted search_query desc = Some md ->
  without_asterisks md = without_asterisks desc.
Proof.
  unfold highlighted. destruct (Re.compile search_query) as [pat|]; [|discriminate].
  intros H. injection H as <-. apply sub_from_without_asterisks.
Qed.

Lemma X10_highlight_adds_asterisks_only_witness :
  without_asterisks "dekat **borobudur**. **BOROBUDUR**!"
  = without_asterisks "dekat borobudur. BOROBUDUR!".
Proof.
  apply (X10_highlight_adds_asterisks_only "Borobudur").
  reflexivity.
Defined.










(** ** Starting up *)

(** X12: the script goes past [st.stop()] exactly when the three tables and
    the model are on disk, and then with all four loaded and no banner shown,
    although the test looks at [rating_df] and [model] only; when it stops, a
    banner names each kind of file that is missing. *)
Theorem X12_startup (d : disk) :
  match snd (startup d) with
  | Some g =>
      fst (startup d) = [] /\
      g_rating_df g = Dataset_Rating_Mgl_csv d /\ g_rating_df g <> None /\
      g_place_df g = Dataset_tourisMagelang_csv d /\ g_place_df g <> None /\
      g_user_df g = Dataset_usermgl_csv d /\ g_user_df g <> None /\
      g_model g = mf_model_pkl d /\ g_model g <> None
  | None =>
      (In FileDatasetTidakDitemukan (fst (startup d)) <->
       Dataset_Rating_Mgl_csv d = None \/ Dataset_tourisMagelang_csv d = None \/
       Dataset_usermgl_csv d = None) /\
      (In FileModelTidakDitemukan (fst (startup d)) <-> mf_model_pkl d = None) /\
      fst (startup d) <> []
  end.
Proof.
  unfold startup, load_data, load_model.
  destruct d as [[r|] [p|] [u|] [m|]]; cbn;
    repeat split; try discriminate; try reflexivity; try tauto;
    try (intros [H|H]; try discriminate; tauto);
    try (intros [H|[H|H]]; discriminate);
    try (intros [H|[H|[]]]; discriminate);
    intuition discriminate.
Qed.

(** ** The page of a query *)


Lemma no_rating_iff_no_review (rating_df : list RatingDf.row)
    (user_df : list UserDf.row) (place_name : string) :
  write_rating rating_df place_name = BelumAdaRating <->
  get_reviews_for_place rating_df user_df place_name = [].
Proof.
  assert (H1 : write_rating rating_df place_name = BelumAdaRating <->
               ratings_named rating_df place_name = []).
  { unfold write_rating, avg_rating. fold (ratings_named rating_df place_name).
    destruct (ratings_named rating_df place_name); cbn; split;
      congruence. }
  rewrite H1.
  destruct (reviews_join rating_df user_df place_name) as [Hsound Hcompl].
  split.
  - intros E. destruct (get_reviews_for_place _ _ _) as [|rv l] eqn:Er;
      [reflexivity|].
    destruct (Hsound rv (or_introl eq_refl)) as [Hin _]. rewrite E in Hin.
    destruct Hin.
  - intros E. destruct (ratings_named rating_df place_name) as [|r l] eqn:Er;
      [reflexivity|].
    destruct (Hcompl r (or_introl eq_refl)) as (rv & Hin & _).
    rewrite E in Hin. destruct Hin.
Qed.



(** X9: for every place name these are the same: the page writes that there
    is no rating yet, it writes that there is no review yet, and the rating
    table has no row with that name up to case; the table of users does not
    matter. *)
Theorem X9_no_rating_iff_no_review (rating_df : list RatingDf.row)
    (user_df : list UserDf.row) (place_name : string) :
  (write_rating rating_df place_name = BelumAdaRating <->
   get_reviews_for_place rating_df user_df place_name = []) /\
  (write_rating rating_df place_name = BelumAdaRating <->
   forall r, In r rating_df ->
     Text.lower (RatingDf.Place_Name r) <> Text.lower place_name).
Proof.
  split; [apply no_rating_iff_no_review|].
  unfold write_rating, avg_rating. fold (ratings_named rating_df place_name).
  split.
  - intros H r Hr E.
    assert (Hin : In r (ratings_named rating_df place_name)).
    { apply filter_In. split; [assumption | now apply String.eqb_eq]. }
    destruct (ratings_named rating_df place_name); [destruct Hin | discriminate].
  - intros H. destruct (ratings_named rating_df place_name) as [|r l] eqn:E;
      [reflexivity|].
    exfalso.
    assert (Hin : In r (ratings_named rating_df place_name)) by (rewrite E; now left).
    apply filter_In in Hin. destruct Hin as [Hr Hn].
    apply (H r Hr). now apply String.eqb_eq.
Qed.

(** ** More on [search_place] *)

(** X14: for every keyword that is a pattern of the fragment and every
    catalog whose description column is one of strings, the hits are the
    catalog rows in whose name or description the pattern is found, each row
    once however often it matches or is repeated in the catalog; a row
    without description can only match by its name.  On a catalog with rows
    whose descriptions are all missing the call raises instead. *)
Theorem X14_search_place_hits (place_df : list PlaceDf.row) (keyword : string)
    (pat : list Re.atom) :
  Re.compile keyword = Some pat ->
  (described place_df ->
   exists hits,
     search_place place_df keyword = Some hits /\
     NoDup (map place hits) /\
     (forall r, In r (map place hits) <->
                In r place_df /\
                (Re.search pat (PlaceDf.Place_Name r) = true \/
                 exists d, PlaceDf.Description r = Some d /\
                           Re.search pat d = true)) /\
     List.length hits <= List.length place_df /\
     forall h, In h hits ->
       Relevance h = relevance_score (Text.lower keyword) (place h)) /\
  (~ described place_df -> search_place place_df keyword = None).
Proof.
  intros Hc. split; [|now apply search_place_undescribed].
  intros Hd.
  destruct (search_place_exact place_df _ _ Hc Hd) as (hits & Hs & Hnd & Hin).
  exists hits. split; [assumption|]. split; [assumption|]. split; [assumption|].
  split.
  - rewrite <- (length_map place). apply NoDup_incl_length; [assumption|].
    intros r Hr. apply Hin in Hr. tauto.
  - intros h Hh. destruct (search_place_hit _ _ _ _ Hs Hh) as (_ & _ & _ & E).
    exact E.
Qed.

Lemma X14_search_place_hits_witness :
  exists hits,
    search_place sample_places "a.d" = Some hits /\
    NoDup (map place hits) /\
    List.length hits <= List.length sample_places.
Proof.
  destruct (X14_search_place_hits sample_places "a.d"
              [Re.Lit "a"; Re.AnyChar; Re.Lit "d"])
    as [Hret _].
  - reflexivity.
  - destruct Hret as (hits & H1 & H2 & _ & H4 & _).
    + right. exists (PlaceDf.mk 1 "Borobudur Temple"
                       (Some "Visit Borobudur for sunrise"%string)).
      split; [now left | discriminate].
    + exists hits. repeat split; assumption.
Defined.












(** ** The introsort sorts *)

Module NpySorts.

Import Npy NpyFacts.

Lemma get_set (t : list nat) (p x k : nat) :
  p < List.length t ->
  get (set t p x) k = if k =? p then x else get t k.
Proof.
  intros Hp. destruct (Nat.eqb_spec k p) as [->|Hne].
  - now apply get_set_eq.
  - apply get_set_neq. lia.
Qed.

Lemma get_swap (t : list nat) (p q k : nat) :
  p < List.length t -> q < List.length t ->
  get (swap t p q) k
  = if k =? q then get t p else if k =? p then get t q else get t k.
Proof.
  intros Hp Hq. unfold swap.
  rewrite get_set by (now rewrite length_set).
  destruct (Nat.eqb_spec k q); [reflexivity|].
  now rewrite get_set.
Qed.

Ltac splits := repeat match goal with |- _ /\ _ => split end.

Ltac cases_nat :=
  repeat match goal with
         | |- context [?a =? ?b] => destruct (Nat.eqb_spec a b)
         | |- context [?a <? ?b] => destruct (Nat.ltb_spec a b)
         | |- context [?a <=? ?b] => destruct (Nat.leb_spec a b)
         end.

Ltac cases_eqb :=
  repeat match goal with
         | |- context [?a =? ?b] => destruct (Nat.eqb_spec a b)
         | H : context [?a =? ?b] |- _ => destruct (Nat.eqb_spec a b)
         end.

Section Cells.

Variable X : nat -> Prop.

Lemma set_cells (t : list nat) (a b p x : nat) :
  p < List.length t -> a <= p -> p < b -> X x ->
  cells_in X t a b -> cells_in X (set t p x) a b.
Proof.
  intros Hp Ha Hb Hx Hc q Hq1 Hq2. rewrite get_set by assumption.
  cases_eqb; [assumption | now apply Hc].
Qed.

Lemma set_outside (t0 t : list nat) (a b p x : nat) :
  p < List.length t -> a <= p -> p < b ->
  same_outside t0 t a b -> same_outside t0 (set t p x) a b.
Proof.
  intros Hp Ha Hb [Hl Ho]. split; [now rewrite length_set|].
  intros q Hq. rewrite get_set by assumption. cases_eqb; [lia | now apply Ho].
Qed.

Lemma swap_cells (t : list nat) (a b p q : nat) :
  p < List.length t -> q < List.length t ->
  a <= p -> p < b -> a <= q -> q < b ->
  cells_in X t a b -> cells_in X (swap t p q) a b.
Proof.
  intros Hp Hq Ha Hb Ha' Hb' Hc k Hk1 Hk2. rewrite get_swap by assumption.
  cases_eqb; now apply Hc.
Qed.

Lemma swap_outside (t0 t : list nat) (a b p q : nat) :
  p < List.length t -> q < List.length t ->
  a <= p -> p < b -> a <= q -> q < b ->
  same_outside t0 t a b -> same_outside t0 (swap t p q) a b.
Proof.
  intros Hp Hq Ha Hb Ha' Hb' [Hl Ho]. split; [now rewrite length_swap|].
  intros k Hk. rewrite get_swap by assumption. cases_eqb; try lia. now apply Ho.
Qed.

End Cells.

Lemma same_outside_refl (t : list nat) (a b : nat) : same_outside t t a b.
Proof. split; reflexivity. Qed.

Lemma held_in_cells (t : list nat) (a b : nat) : cells_in (held_in t a b) t a b.
Proof. intros q H1 H2. now exists q. Qed.

Lemma rearranges_refl (t : list nat) (a b : nat) : rearranges t t a b.
Proof. split; [apply same_outside_refl | auto]. Qed.

Lemma rearranges_trans (t1 t2 t3 : list nat) (a b : nat) :
  rearranges t1 t2 a b -> rearranges t2 t3 a b -> rearranges t1 t3 a b.
Proof.
  intros [[L1 O1] C1] [[L2 O2] C2]. split; [split|].
  - congruence.
  - intros q Hq. rewrite O2, O1; auto.
  - intros X H. apply C2, C1, H.
Qed.

Lemma rearranges_widen (t t' : list nat) (a b a' b' : nat) :
  a' <= a -> b <= b' -> rearranges t t' a b -> rearranges t t' a' b'.
Proof.
  intros Ha Hb [[L O] C]. split; [split|].
  - assumption.
  - intros q Hq. apply O. lia.
  - intros X H q Hq1 Hq2.
    destruct (Nat.lt_ge_cases q a) as [Hlt|Hge]; [rewrite O by lia; now apply H|].
    destruct (Nat.lt_ge_cases q b) as [Hlt'|Hge']; [|rewrite O by lia; now apply H].
    apply C; [|assumption|assumption].
    intros k Hk1 Hk2. apply H; lia.
Qed.

Lemma rearranges_swap (t : list nat) (a b p q : nat) :
  p < List.length t -> q < List.length t ->
  a <= p -> p < b -> a <= q -> q < b ->
  rearranges t (swap t p q) a b.
Proof.
  intros. split.
  - apply swap_outside; try assumption. apply same_outside_refl.
  - intros X HX. now apply swap_cells.
Qed.

Lemma rearranges_length (t t' : list nat) (a b : nat) :
  rearranges t t' a b -> List.length t' = List.length t.
Proof. intros [[L _] _]. exact L. Qed.

Lemma rearranges_key (v : list Z) (t t' : list nat) (a b q : nat) :
  rearranges t t' a b -> a <= q -> q < b ->
  exists q', a <= q' /\ q' < b /\ key_at v t' q = key_at v t q'.
Proof.
  intros [_ C] H1 H2.
  destruct (C (held_in t a b) (held_in_cells t a b) q H1 H2) as (q' & ? & ? & E).
  exists q'. unfold key_at. rewrite E. auto.
Qed.

Lemma rearranges_key_outside (v : list Z) (t t' : list nat) (a b q : nat) :
  rearranges t t' a b -> q < a \/ b <= q -> key_at v t' q = key_at v t q.
Proof. intros [[_ O] _] H. unfold key_at. now rewrite O. Qed.

(** *** The partition *)

Section Partition.

Variable v : list Z.

Local Abbreviation K := (key_at v).

(** A compare-and-swap leaves the smaller key in the cell [lo]. *)
Lemma cswap_spec (t : list nat) (hi lo : nat) :
  hi < List.length t -> lo < List.length t -> hi <> lo ->
  let t' := if less v (get t hi) (get t lo) then swap t hi lo else t in
  K t' lo = Z.min (K t lo) (K t hi) /\
  K t' hi = Z.max (K t lo) (K t hi) /\
  (forall k, k <> lo -> k <> hi -> get t' k = get t k) /\
  List.length t' = List.length t.
Proof.
  intros Hh Hl Hne. cbv zeta. unfold less, key_at.
  destruct (Z.ltb_spec (key v (get t hi)) (key v (get t lo))) as [E|E].
  - rewrite !get_swap by assumption. rewrite length_swap.
    repeat split; cases_eqb; try lia.
    intros k H1 H2. rewrite get_swap by assumption. cases_eqb; try lia; try reflexivity.
  - repeat split; lia.
Qed.

Lemma median3_spec (t : list nat) (pl pm pr : nat) :
  pl < pm -> pm < pr -> pr < List.length t ->
  let t' := median3 v t pl pm pr in
  rearranges t t' pl (S pr) /\
  (K t' pl <= K t' pm)%Z /\ (K t' pm <= K t' pr)%Z.
Proof.
  intros H1 H2 H3. cbv zeta. unfold median3.
  set (t1 := if less v (get t pm) (get t pl) then swap t pm pl else t).
  assert (R1 : rearranges t t1 pl (S pr)).
  { unfold t1. destruct (less v _ _); [apply rearranges_swap; lia | apply rearranges_refl]. }
  destruct (cswap_spec t pm pl) as (A1 & B1 & O1 & L1); try lia.
  fold t1 in A1, B1, O1, L1. clearbody t1.
  set (t2 := if less v (get t1 pr) (get t1 pm) then swap t1 pr pm else t1).
  assert (R2 : rearranges t1 t2 pl (S pr)).
  { unfold t2. destruct (less v _ _); [apply rearranges_swap; lia | apply rearranges_refl]. }
  destruct (cswap_spec t1 pr pm) as (A2 & B2 & O2 & L2); try lia.
  fold t2 in A2, B2, O2, L2. clearbody t2.
  set (t3 := if less v (get t2 pm) (get t2 pl) then swap t2 pm pl else t2).
  assert (R3 : rearranges t2 t3 pl (S pr)).
  { unfold t3. destruct (less v _ _); [apply rearranges_swap; lia | apply rearranges_refl]. }
  destruct (cswap_spec t2 pm pl) as (A3 & B3 & O3 & L3); try lia.
  fold t3 in A3, B3, O3, L3. clearbody t3.
  split; [eapply rearranges_trans; [eapply rearranges_trans|]; eassumption|].
  assert (Epr : K t3 pr = K t2 pr) by (unfold key_at; rewrite O3 by lia; reflexivity).
  assert (Epl : K t2 pl = K t1 pl) by (unfold key_at; rewrite O2 by lia; reflexivity).
  assert (Epr1 : K t1 pr = K t pr) by (unfold key_at; rewrite O1 by lia; reflexivity).
  lia.
Qed.

Lemma scan_up_spec (fuel : nat) :
  forall (t : list nat) (vp : Z) (p s : nat),
    p <= s -> s < p + fuel -> (vp <= K t s)%Z ->
    let r := scan_up v fuel t vp p in
    p <= r /\ r <= s /\ (vp <= K t r)%Z /\
    forall k, p <= k -> k < r -> (K t k < vp)%Z.
Proof.
  induction fuel as [|f IH]; intros t vp p s Hps Hf Hs; cbv zeta; cbn [scan_up]; [lia|].
  fold (K t p). destruct (Z.ltb_spec (K t p) vp) as [E|E].
  - assert (p <> s) by (intros ->; lia).
    destruct (IH t vp (S p) s) as (H1 & H2 & H3 & H4); try lia.
    splits; try lia. intros k Hk1 Hk2.
    destruct (Nat.eq_dec k p) as [->|]; [assumption | apply H4; lia].
  - splits; try lia.
Qed.

Lemma scan_down_spec (fuel : nat) :
  forall (t : list nat) (vp : Z) (p s : nat),
    s <= p -> p < s + fuel -> (K t s <= vp)%Z ->
    let r := scan_down v fuel t vp p in
    s <= r /\ r <= p /\ (K t r <= vp)%Z /\
    forall k, r < k -> k <= p -> (vp < K t k)%Z.
Proof.
  induction fuel as [|f IH]; intros t vp p s Hps Hf Hs; cbv zeta; cbn [scan_down]; [lia|].
  fold (K t p). destruct (Z.ltb_spec vp (K t p)) as [E|E].
  - assert (p <> s) by (intros ->; lia).
    destruct (IH t vp (p - 1) s) as (H1 & H2 & H3 & H4); try lia.
    splits; try lia. intros k Hk1 Hk2.
    destruct (Nat.eq_dec k p) as [->|]; [assumption | apply H4; lia].
  - splits; try lia.
Qed.

Lemma hoare_sorts (fuel : nat) :
  forall (t : list nat) (vp : Z) (pl pi pj pr : nat),
    pl <= pi -> pi < pj -> pj < pi + fuel -> pj <= pr - 1 -> pr < List.length t ->
    K t (pr - 1) = vp ->
    (forall k, pl <= k -> k <= pi -> (K t k <= vp)%Z) ->
    (forall k, pj <= k -> k <= pr -> (vp <= K t k)%Z) ->
    let t' := fst (hoare v fuel t vp pi pj) in
    let p := snd (hoare v fuel t vp pi pj) in
    rearranges t t' pl (S pr) /\
    pi < p /\ p <= pr - 1 /\ K t' (pr - 1) = vp /\
    (forall k, pl <= k -> k < p -> (K t' k <= vp)%Z) /\
    (forall k, p <= k -> k <= pr -> (vp <= K t' k)%Z).
Proof.
  induction fuel as [|f IH]; intros t vp pl pi pj pr Hpl Hij Hf Hpj Hpr Hpiv HA HB;
    [lia|].
  cbv zeta. cbn [hoare].
  destruct (scan_up_spec (List.length t) t vp (S pi) (pr - 1))
    as (U1 & U2 & U3 & U4); try lia.
  destruct (scan_down_spec (List.length t) t vp (pj - 1) pi)
    as (D1 & D2 & D3 & D4); try lia.
  { apply HA; lia. }
  set (pi' := scan_up v (List.length t) t vp (S pi)) in *.
  set (pj' := scan_down v (List.length t) t vp (pj - 1)) in *.
  destruct (Nat.leb_spec pj' pi') as [Hle|Hlt]; cbn [fst snd].
  - split; [apply rearranges_refl|]. splits; try lia.
    + intros k Hk1 Hk2. destruct (Nat.le_gt_cases k pi); [now apply HA|].
      apply Z.lt_le_incl, U4; lia.
    + intros k Hk1 Hk2. destruct (Nat.eq_dec k pi') as [->|]; [assumption|].
      destruct (Nat.le_gt_cases pj k); [now apply HB|].
      apply Z.lt_le_incl, D4; lia.
  - assert (Hsw : forall k, K (swap t pi' pj') k
                  = if k =? pj' then K t pi' else if k =? pi' then K t pj' else K t k).
    { intros k. unfold key_at. rewrite get_swap by lia. cases_eqb; reflexivity. }
    destruct (IH (swap t pi' pj') vp pl pi' pj' pr)
      as (R & P1 & P2 & P3 & P4 & P5); rewrite ?length_swap; try lia.
    + rewrite Hsw. cases_eqb; try lia; assumption.
    + intros k Hk1 Hk2. rewrite Hsw. cases_eqb; try lia.
      destruct (Nat.le_gt_cases k pi); [now apply HA|].
      apply Z.lt_le_incl, U4; lia.
    + intros k Hk1 Hk2. rewrite Hsw. cases_eqb; try lia.
      destruct (Nat.le_gt_cases pj k); [now apply HB|].
      apply Z.lt_le_incl, D4; lia.
    + split.
      * eapply rearranges_trans; [|exact R]. apply rearranges_swap; lia.
      * splits; try assumption; lia.
Qed.

(** After the partition the pivot stands at [pi], no larger key before it in
    the segment and no smaller key after it. *)
Lemma partition_sorts (t : list nat) (pl pr : nat) :
  pl + 2 <= pr -> pr < List.length t ->
  let t' := fst (partition v t pl pr) in
  let pi := snd (partition v t pl pr) in
  rearranges t t' pl (S pr) /\
  pl < pi /\ pi < pr /\
  (forall k, pl <= k -> k < pi -> (K t' k <= K t' pi)%Z) /\
  (forall k, pi < k -> k <= pr -> (K t' pi <= K t' k)%Z).
Proof.
  intros H1 H2. cbv zeta. unfold partition.
  set (pm := pl + (pr - pl) / 2).
  assert (Hpm : pl < pm /\ pm < pr).
  { unfold pm. split.
    - assert (1 <= (pr - pl) / 2) by (apply Nat.div_le_lower_bound; lia). lia.
    - assert ((pr - pl) / 2 < pr - pl) by (apply Nat.div_lt; lia). lia. }
  destruct (median3_spec t pl pm pr) as (R3 & M1 & M2); try lia.
  set (t3 := median3 v t pl pm pr) in *.
  pose proof (rearranges_length _ _ _ _ R3) as L3.
  set (vp := key v (get t3 pm)).
  set (t4 := swap t3 pm (pr - 1)).
  assert (R4 : rearranges t3 t4 pl (S pr)) by (apply rearranges_swap; lia).
  assert (K4 : forall k, K t4 k
               = if k =? pr - 1 then K t3 pm else if k =? pm then K t3 (pr - 1)
                 else K t3 k).
  { intros k. unfold key_at, t4. rewrite get_swap by lia. cases_eqb; reflexivity. }
  destruct (hoare_sorts (List.length t) t4 vp pl pl (pr - 1) pr)
    as (R5 & P1 & P2 & P3 & P4 & P5);
    try (unfold t4; rewrite ?length_swap); try lia.
  { fold t4. rewrite K4. cases_eqb; try lia. reflexivity. }
  { intros k Hk1 Hk2. fold t4. assert (k = pl) by lia. subst k.
    rewrite K4. cases_eqb; try lia. exact M1. }
  { intros k Hk1 Hk2. fold t4. rewrite K4. cases_eqb; try lia.
    - apply Z.le_refl.
    - assert (k = pr) by lia. subst k. exact M2. }
  fold t4 in R5, P3, P4, P5 |- *.
  destruct (hoare v (List.length t) t4 vp pl (pr - 1)) as [t5 pi].
  cbn [fst snd] in *.
  pose proof (rearranges_length _ _ _ _ R5) as L5.
  pose proof (rearranges_length _ _ _ _ R4) as L4.
  assert (R6 : rearranges t5 (swap t5 pi (pr - 1)) pl (S pr))
    by (apply rearranges_swap; lia).
  assert (K6 : forall k, K (swap t5 pi (pr - 1)) k
               = if k =? pr - 1 then K t5 pi else if k =? pi then K t5 (pr - 1)
                 else K t5 k).
  { intros k. unfold key_at. rewrite get_swap by lia. cases_eqb; reflexivity. }
  split; [|split; [lia|split; [lia|split]]].
  - eapply rearranges_trans; [|exact R6].
    eapply rearranges_trans; [|exact R5].
    eapply rearranges_trans; [exact R3 | exact R4].
  - intros k Hk1 Hk2. rewrite !K6.
    cases_eqb; try lia; subst; rewrite ?P3;
      first [apply Z.le_refl | apply P4; lia | apply P5; lia].
  - intros k Hk1 Hk2. rewrite !K6.
    cases_eqb; try lia; subst; rewrite ?P3;
      first [apply Z.le_refl | apply P5; lia | apply P4; lia].
Qed.

End Partition.

(** *** The insertion sort *)

Section InsertionSorts.

Variable v : list Z.

Local Abbreviation K := (key_at v).

(** Where [shift] puts [vi]: the cells from [r] to [pj - 1] move up by one. *)
Lemma shift_closed (fuel : nat) :
  forall (t : list nat) (pl vi pj : nat),
    pl <= pj -> pj - pl <= fuel -> pj < List.length t ->
    exists r,
      pl <= r /\ r <= pj /\
      (forall k, r <= k -> k < pj -> (key v vi < K t k)%Z) /\
      (pl < r -> (K t (r - 1) <= key v vi)%Z) /\
      List.length (shift v fuel t pl vi pj) = List.length t /\
      forall k, get (shift v fuel t pl vi pj) k
                = if k <? r then get t k
                  else if k =? r then vi
                  else if k <=? pj then get t (k - 1) else get t k.
Proof.
  induction fuel as [|f IH]; intros t pl vi pj H1 H2 H3.
  - exists pj. cbn [shift]. splits; try lia.
    + apply length_set.
    + intros k. rewrite get_set by assumption. cases_nat; try lia; reflexivity.
  - cbn [shift]. destruct (Nat.ltb_spec pl pj) as [Hlt|Hge]; cbn [andb].
    + unfold less. fold (K t (pj - 1)).
      destruct (Z.ltb_spec (key v vi) (K t (pj - 1))) as [E|E].
      * destruct (IH (set t pj (get t (pj - 1))) pl vi (pj - 1))
          as (r & R1 & R2 & R3 & R4 & R5 & R6); rewrite ?length_set; try lia.
        assert (Ek : forall k, k < pj -> K (set t pj (get t (pj - 1))) k = K t k).
        { intros k Hk. unfold key_at. rewrite get_set by assumption.
          cases_nat; try lia; reflexivity. }
        exists r. splits; try lia.
        -- intros k Hk1 Hk2. destruct (Nat.eq_dec k (pj - 1)) as [->|Hne];
             [assumption|]. rewrite <- Ek by lia. apply R3; lia.
        -- intros Hr. rewrite <- Ek by lia. now apply R4.
        -- rewrite R5. apply length_set.
        -- intros k. rewrite R6, !get_set by assumption.
           cases_nat; try lia; try reflexivity.
           replace (k - 1) with (pj - 1) by lia. reflexivity.
      * exists pj. splits; try lia.
        -- apply length_set.
        -- intros k. rewrite get_set by assumption. cases_nat; try lia; reflexivity.
    + exists pj. splits; try lia.
      * apply length_set.
      * intros k. rewrite get_set by assumption. cases_nat; try lia; reflexivity.
Qed.

(** One round of the insertion sort. *)
Lemma shift_sorts (t : list nat) (pl pi : nat) :
  pl <= pi -> pi < List.length t -> sorted_range v t pl pi ->
  let t' := shift v pi t pl (get t pi) pi in
  sorted_range v t' pl (S pi) /\ rearranges t t' pl (S pi).
Proof.
  intros H1 H2 Hs. cbv zeta.
  destruct (shift_closed pi t pl (get t pi) pi) as (r & R1 & R2 & R3 & R4 & R5 & R6);
    try lia.
  split; [|split; [split|]].
  - intros i j Hi Hij Hj. unfold key_at. rewrite !R6.
    fold (K t i) (K t j) (K t (i - 1)) (K t (j - 1)).
    assert (S1 : i < pi -> j < pi -> (K t i <= K t j)%Z) by (intros; apply Hs; lia).
    assert (S2 : i < j -> (K t i <= K t (j - 1))%Z) by (intros; apply Hs; lia).
    assert (S3 : pl < i -> (K t (i - 1) <= K t (j - 1))%Z) by (intros; apply Hs; lia).
    assert (S4 : i < r -> (K t i <= K t (r - 1))%Z) by (intros; apply Hs; lia).
    assert (S5 : r < j -> (key v (get t pi) < K t (j - 1))%Z) by (intros; apply R3; lia).
    cases_nat; try lia; subst; unfold key_at in *; lia.
  - exact R5.
  - intros q Hq. rewrite R6. cases_nat; try lia; reflexivity.
  - intros X HX q Hq1 Hq2. rewrite R6. cases_nat; try lia; apply HX; lia.
Qed.

Lemma insertion_from_sorts (pl k : nat) :
  forall (t : list nat) (pi : nat),
    pl <= pi -> pi + k <= List.length t -> sorted_range v t pl pi ->
    let t' := insertion_from v k t pl pi in
    sorted_range v t' pl (pi + k) /\ rearranges t t' pl (pi + k).
Proof.
  induction k as [|k IH]; intros t pi H1 H2 Hs; cbv zeta; cbn [insertion_from].
  - rewrite Nat.add_0_r. split; [assumption | apply rearranges_refl].
  - destruct (shift_sorts t pl pi) as [S1 R1]; try lia; try assumption.
    destruct (IH (shift v pi t pl (get t pi) pi) (S pi)) as [S2 R2];
      rewrite ?(rearranges_length _ _ _ _ R1); try lia; try assumption.
    replace (pi + S k) with (S pi + k) by lia. split; [assumption|].
    eapply rearranges_trans; [|exact R2].
    eapply rearranges_widen; [| |exact R1]; lia.
Qed.

Lemma insertion_sorts (t : list nat) (pl pr : nat) :
  pl <= pr -> pr < List.length t ->
  let t' := insertion v t pl pr in
  sorted_range v t' pl (S pr) /\ rearranges t t' pl (S pr).
Proof.
  intros H1 H2. cbv zeta. unfold insertion.
  destruct (insertion_from_sorts pl (pr - pl) t (S pl)) as [S1 R1]; try lia.
  - intros i j Hi Hij Hj. replace j with i by lia. apply Z.le_refl.
  - replace (S pl + (pr - pl)) with (S pr) in * by lia. split; assumption.
Qed.

End InsertionSorts.

(** *** The heap sort *)

Section HeapSorts.

Variable v : list Z.

Local Abbreviation K := (key_at v).

Lemma key_set (t : list nat) (p x q : nat) :
  p < List.length t -> K (set t p x) q = if q =? p then key v x else K t q.
Proof.
  intros H. unfold key_at. rewrite get_set by assumption. cases_eqb; reflexivity.
Qed.

Lemma key_set_hpos (t : list nat) (pl i y x : nat) :
  1 <= x -> 1 <= i -> hpos pl i < List.length t ->
  K (set t (hpos pl i) y) (hpos pl x)
  = if x =? i then key v y else K t (hpos pl x).
Proof.
  intros Hx Hi Hl. rewrite key_set by assumption.
  destruct (Nat.eqb_spec x i) as [->|Hne]; [now rewrite Nat.eqb_refl|].
  destruct (Nat.eqb_spec (hpos pl x) (hpos pl i)) as [e|_];
    [unfold hpos in e; lia | reflexivity].
Qed.

Lemma rearranges_with_set (t : list nat) (a b p tmp : nat) :
  p < List.length t -> a <= p -> p < b ->
  rearranges_with tmp t (set t p tmp) a b.
Proof.
  intros Hp Ha Hb. split.
  - apply set_outside; try assumption. apply same_outside_refl.
  - intros X HX HC. now apply set_cells.
Qed.

(** [tmp] sinks from the slot [i]: every edge below [l] that does not touch
    the hole is in order, and the parent of the hole is no smaller than the
    children of the hole. *)
Lemma sift_sorts (pl l n tmp : nat) (fuel : nat) :
  forall (t : list nat) (i : nat),
    1 <= l -> l <= i -> i <= n -> pl + n <= List.length t -> n < i + fuel ->
    (forall p c, l <= p -> p <> i -> child p c -> c <= n ->
       (K (set t (hpos pl i) tmp) (hpos pl c)
        <= K (set t (hpos pl i) tmp) (hpos pl p))%Z) ->
    (forall p c, l <= p -> child p i -> child i c -> c <= n ->
       (K t (hpos pl c) <= K t (hpos pl p))%Z) ->
    let t' := sift v fuel t pl n tmp i (i + i) in
    heap_from v t' pl l n /\ rearranges_with tmp t t' pl (pl + n).
Proof.
  induction fuel as [|f IH]; intros t i Hl Hli Hin Hlen Hf H1 H2; [lia|].
  cbv zeta. cbn [sift].
  assert (Hi : hpos pl i < List.length t) by (unfold hpos; lia).
  assert (Hstop : (forall c, child i c -> c <= n -> (K t (hpos pl c) <= key v tmp)%Z) ->
            heap_from v (set t (hpos pl i) tmp) pl l n /\
            rearranges_with tmp t (set t (hpos pl i) tmp) pl (pl + n)).
  { intros Hc. split.
    - intros p c Hp Hpc Hcn. destruct (Nat.eq_dec p i) as [->|Hne]; [|now apply H1].
      unfold key_at at 1 2. rewrite !get_set by assumption.
      destruct (Nat.eqb_spec (hpos pl c) (hpos pl i)) as [e|_];
        [unfold hpos, child in *; lia|].
      rewrite Nat.eqb_refl. apply Hc; assumption.
    - apply rearranges_with_set; unfold hpos; lia. }
  destruct (Nat.leb_spec (i + i) n) as [Hj|Hj].
  - set (j' := if (i + i <? n) && less v (get t (hpos pl (i + i)))
                                       (get t (hpos pl (i + i + 1)))
               then i + i + 1 else i + i).
    assert (Hj' : child i j' /\ j' <= n /\
                  forall c, child i c -> c <= n -> (K t (hpos pl c) <= K t (hpos pl j'))%Z).
    { unfold j', child, less. fold (K t (hpos pl (i + i))) (K t (hpos pl (i + i + 1))).
      destruct (Nat.ltb_spec (i + i) n) as [Hlt|Hge]; cbn [andb].
      - destruct (Z.ltb_spec (K t (hpos pl (i + i))) (K t (hpos pl (i + i + 1)))) as [E|E].
        + splits; try lia. intros c [->| ->] Hc.
          * replace (2 * i) with (i + i) by lia. lia.
          * replace (2 * i + 1) with (i + i + 1) by lia. lia.
        + splits; try lia. intros c [->| ->] Hc.
          * replace (2 * i) with (i + i) by lia. lia.
          * replace (2 * i + 1) with (i + i + 1) by lia. lia.
      - splits; try lia. intros c [->| ->] Hc; [|lia].
        replace (2 * i) with (i + i) by lia. lia. }
    destruct Hj' as (Hch & Hjn & Hmax). clearbody j'.
    unfold less. fold (K t (hpos pl j')).
    destruct (Z.ltb_spec (key v tmp) (K t (hpos pl j'))) as [E|E].
    + assert (Hj1 : hpos pl j' < List.length t) by (unfold hpos; lia).
      assert (Hij : i < j') by (unfold child in Hch; lia).
      destruct (IH (set t (hpos pl i) (get t (hpos pl j'))) j') as [G R];
        rewrite ?length_set; try lia.
      * intros p c Hp Hne Hpc Hcn.
        assert (Hc1 : 1 <= c) by (unfold child in Hpc; lia).
        rewrite !key_set_hpos by (rewrite ?length_set; first [assumption | lia]).
        fold (K t (hpos pl j')).
        rewrite (proj2 (Nat.eqb_neq p j') Hne).
        destruct (Nat.eqb_spec c j') as [->|Hcj].
        -- assert (p = i) by (unfold child in *; lia). subst p.
           rewrite Nat.eqb_refl. lia.
        -- destruct (Nat.eqb_spec c i) as [->|Hci].
           ++ destruct (Nat.eqb_spec p i) as [e|_]; [unfold child in *; lia|].
              now apply H2.
           ++ destruct (Nat.eqb_spec p i) as [->|Hpi]; [now apply Hmax|].
              specialize (H1 p c Hp Hpi Hpc Hcn).
              rewrite !key_set_hpos in H1 by first [assumption | lia].
              rewrite (proj2 (Nat.eqb_neq c i) Hci), (proj2 (Nat.eqb_neq p i) Hpi) in H1.
              exact H1.
      * intros p c Hp Hpj Hjc Hcn.
        assert (p = i) by (unfold child in *; lia). subst p.
        assert (Hc1 : i < c) by (unfold child in *; lia).
        rewrite !key_set_hpos by first [assumption | lia].
        rewrite Nat.eqb_refl, (proj2 (Nat.eqb_neq c i)) by lia.
        fold (K t (hpos pl j')).
        assert (A1 : (K (set t (hpos pl i) tmp) (hpos pl c)
                      <= K (set t (hpos pl i) tmp) (hpos pl j'))%Z)
          by (apply H1; try assumption; lia).
        rewrite !key_set_hpos in A1 by first [assumption | lia].
        rewrite !(proj2 (Nat.eqb_neq _ i)) in A1 by lia.
        exact A1.
      * split; [exact G|]. destruct R as [[RL RO] RC]. split; [split|].
        -- now rewrite RL, length_set.
        -- intros q Hq. rewrite RO, get_set by assumption.
           cases_eqb; [unfold hpos in *; lia | reflexivity].
        -- intros X HX HC. apply RC; [assumption|].
           apply set_cells; try assumption; try (unfold hpos; lia).
           apply HC; unfold hpos; lia.
    + apply Hstop. intros c Hc Hcn. specialize (Hmax c Hc Hcn). lia.
  - apply Hstop. intros c Hc Hcn. unfold child in Hc. lia.
Qed.

Lemma set_same (t : list nat) (p : nat) : set t p (get t p) = t.
Proof.
  revert p. induction t as [|x t IH]; intros [|p]; cbn [set]; try reflexivity.
  unfold get. cbn [nth]. f_equal. apply IH.
Qed.

Lemma rearranges_with_cell (t t' : list nat) (a b p : nat) :
  a <= p -> p < b -> rearranges_with (get t p) t t' a b -> rearranges t t' a b.
Proof.
  intros Ha Hb [O C]. split; [exact O|].
  intros X HX. apply C; [|assumption]. now apply HX.
Qed.

Lemma heapify_sorts (pl n : nat) (l : nat) :
  forall t : list nat,
    pl + n <= List.length t -> l <= n -> heap_from v t pl (S l) n ->
    let t' := heapify v l t pl n in
    heap_from v t' pl 1 n /\ rearranges t t' pl (pl + n).
Proof.
  induction l as [|l IH]; intros t Hlen Hl Hh; cbv zeta; cbn [heapify].
  - split; [assumption | apply rearranges_refl].
  - destruct (sift_sorts pl (S l) n (get t (hpos pl (S l))) n t (S l)) as [G R];
      try lia.
    + intros p c Hp Hne Hpc Hcn. rewrite set_same. apply Hh; try assumption. lia.
    + intros p c Hp Hpc. unfold child in Hpc. lia.
    + apply rearranges_with_cell in R; try (unfold hpos; lia).
      destruct (IH (sift v n t pl n (get t (hpos pl (S l))) (S l) (S l + S l))) as [G' R'];
        rewrite ?(rearranges_length _ _ _ _ R); try lia; try assumption.
      split; [assumption | eapply rearranges_trans; eassumption].
Qed.

(** The root of a heap holds its largest key. *)
Lemma heap_root (t : list nat) (pl n : nat) :
  heap_from v t pl 1 n ->
  forall c, 1 <= c -> c <= n -> (K t (hpos pl c) <= K t (hpos pl 1))%Z.
Proof.
  intros Hh c. induction c as [c IH] using lt_wf_ind. intros H1 Hn.
  destruct (Nat.eq_dec c 1) as [->|Hne]; [apply Z.le_refl|].
  assert (Hp : child (c / 2) c /\ 1 <= c / 2 /\ c / 2 < c).
  { unfold child. pose proof (Nat.div_mod_eq c 2) as E.
    pose proof (Nat.mod_upper_bound c 2). lia. }
  destruct Hp as (Hc & Hp1 & Hp2).
  apply Z.le_trans with (K t (hpos pl (c / 2))).
  - now apply Hh.
  - apply IH; lia.
Qed.

Lemma extract_sorts (pl N : nat) (n : nat) :
  forall t : list nat,
    pl + N <= List.length t -> n <= N ->
    heap_from v t pl 1 n ->
    sorted_range v t (pl + n) (pl + N) ->
    (forall k q, pl <= k -> k < pl + n -> pl + n <= q -> q < pl + N ->
                 (K t k <= K t q)%Z) ->
    let t' := extract v n t pl in
    sorted_range v t' pl (pl + N) /\ rearranges t t' pl (pl + N).
Proof.
  induction n as [|n IH]; intros t Hlen Hn Hh Hs Hb; cbv zeta; cbn [extract].
  - rewrite Nat.add_0_r in Hs. split; [assumption | apply rearranges_refl].
  - destruct n as [|m].
    + split; [|apply rearranges_refl].
      intros i j Hi Hij Hj. destruct (Nat.eq_dec i j) as [->|Hne]; [apply Z.le_refl|].
      destruct (Nat.eq_dec i pl) as [->|Hne'].
      * apply Hb; lia.
      * apply Hs; lia.
    + set (n := S (S m)) in *.
      set (tmp := get t (hpos pl n)).
      set (t1 := set t (hpos pl n) (get t (hpos pl 1))).
      assert (Hn1 : hpos pl n < List.length t) by (unfold hpos, n; lia).
      assert (Hpn : hpos pl n = pl + S m) by (unfold hpos, n; lia).
      assert (L1 : List.length t1 = List.length t) by apply length_set.
      assert (Hroot : forall c, 1 <= c -> c <= n -> (K t (hpos pl c) <= K t (hpos pl 1))%Z)
        by now apply heap_root.
      assert (G1 : forall q, get t1 q = if q =? pl + S m then get t (hpos pl 1) else get t q).
      { intros q. unfold t1. rewrite get_set by assumption. now rewrite Hpn. }
      change 2 with (1 + 1).
      destruct (sift_sorts pl 1 (S m) tmp (S m) t1 1) as [G R];
        rewrite ?L1; try lia.
      { intros p c Hp Hne Hpc Hcn.
        assert (Hc1 : 1 < c) by (unfold child in Hpc; lia).
        rewrite !key_set_hpos by (rewrite ?L1; unfold hpos; lia).
        rewrite !(proj2 (Nat.eqb_neq _ 1)) by lia.
        unfold key_at. rewrite !G1.
        destruct (Nat.eqb_spec (hpos pl c) (pl + S m)) as [e|_]; [unfold hpos in e; lia|].
        destruct (Nat.eqb_spec (hpos pl p) (pl + S m)) as [e|_];
          [unfold hpos, child in *; lia|].
        apply Hh; try assumption. unfold n. lia. }
      { intros p c Hp Hpc. unfold child in Hpc. lia. }
      set (t2 := sift v (S m) t1 pl (S m) tmp 1 (1 + 1)) in *.
      destruct R as [[RL RO] RC].
      assert (L2 : List.length t2 = List.length t) by congruence.
      set (X := fun x => (key v x <= K t (hpos pl 1))%Z /\
                         forall q, pl + n <= q -> q < pl + N -> (key v x <= K t q)%Z).
      assert (HXt : cells_in X t pl (pl + n)).
      { intros k Hk1 Hk2. split.
        - replace k with (hpos pl (k - pl + 1)) by (unfold hpos; lia).
          apply Hroot; lia.
        - intros q Hq1 Hq2. now apply Hb. }
      assert (HX2 : cells_in X t2 pl (pl + S m)).
      { apply RC.
        - apply (HXt (hpos pl n)); unfold hpos, n; lia.
        - intros k Hk1 Hk2. rewrite G1.
          destruct (Nat.eqb_spec k (pl + S m)) as [e|_]; [lia|].
          apply HXt; unfold n; lia. }
      assert (G2 : forall q, pl + S m <= q -> get t2 q
                   = if q =? pl + S m then get t (hpos pl 1) else get t q).
      { intros q Hq. rewrite RO by lia. apply G1. }
      destruct (IH t2) as [S' R']; try lia; try assumption.
      { intros i j Hi Hij Hj. unfold key_at. rewrite !G2 by lia.
        destruct (Nat.eqb_spec i (pl + S m)) as [->|Hi'];
          destruct (Nat.eqb_spec j (pl + S m)) as [->|Hj']; try lia.
        - apply (Hb (hpos pl 1)); unfold hpos, n; lia.
        - apply Hs; unfold n; lia. }
      { intros k q Hk1 Hk2 Hq1 Hq2. destruct (HX2 k Hk1 Hk2) as [X1 X2].
        unfold key_at at 2. rewrite G2 by lia.
        destruct (Nat.eqb_spec q (pl + S m)) as [->|Hq'].
        - exact X1.
        - apply X2; unfold n; lia. }
      split; [assumption|].
      eapply rearranges_trans; [|exact R'].
      apply rearranges_widen with (a := pl) (b := pl + n); try lia.
      split; [split|].
      * exact L2.
      * intros q Hq. destruct (Nat.lt_ge_cases q pl).
        -- rewrite RO by lia. rewrite G1.
           destruct (Nat.eqb_spec q (pl + S m)); [lia | reflexivity].
        -- rewrite G2 by (unfold n in Hq; lia).
           destruct (Nat.eqb_spec q (pl + S m)); [unfold n in Hq; lia | reflexivity].
      * intros Y HY q Hq1 Hq2. destruct (Nat.lt_ge_cases q (pl + S m)) as [Hlt|Hge].
        -- apply RC; try assumption.
           ++ apply HY; unfold hpos, n; lia.
           ++ intros k Hk1 Hk2. rewrite G1.
              destruct (Nat.eqb_spec k (pl + S m)); [lia|]. apply HY; unfold n; lia.
        -- rewrite G2 by lia. replace q with (pl + S m) by (unfold n in Hq2; lia).
           rewrite Nat.eqb_refl. apply HY; unfold hpos, n; lia.
Qed.

Lemma aheapsort_sorts (t : list nat) (pl n : nat) :
  pl + n <= List.length t ->
  let t' := aheapsort v t pl n in
  sorted_range v t' pl (pl + n) /\ rearranges t t' pl (pl + n).
Proof.
  intros Hlen. cbv zeta. unfold aheapsort.
  assert (Hd : n / 2 <= n /\ n < 2 * (n / 2) + 2).
  { pose proof (Nat.div_mod_eq n 2). pose proof (Nat.mod_upper_bound n 2). lia. }
  destruct (heapify_sorts pl n (n / 2) t) as [G R]; try lia.
  { intros p c Hp Hc Hn. unfold child in Hc. lia. }
  destruct (extract_sorts pl n n (heapify v (n / 2) t pl n)) as [S' R'];
    rewrite ?(rearranges_length _ _ _ _ R); try lia; try assumption.
  - intros i j Hi Hij Hj. lia.
  - split; [assumption | eapply rearranges_trans; eassumption].
Qed.

End HeapSorts.

(** *** The driver *)

Section DriverSorts.

Variable v : list Z.

Local Abbreviation K := (key_at v).

Lemma inside_spec (pl pr : nat) (d : Z) (k : nat) :
  inside (pl, pr, d) k = true <-> pl <= k /\ k <= pr.
Proof.
  unfold inside. cbn [fst snd]. rewrite andb_true_iff, !Nat.leb_le. tauto.
Qed.

Lemma inside_out (pl pr : nat) (d : Z) (k : nat) :
  k < pl \/ pr < k -> inside (pl, pr, d) k = false.
Proof.
  intros H. destruct (inside (pl, pr, d) k) eqn:E; [|reflexivity].
  apply inside_spec in E. lia.
Qed.

Lemma inside_both (pl pr : nat) (d : Z) (i j : nat) :
  pl <= i -> i <= j -> j <= pr ->
  inside (pl, pr, d) i && inside (pl, pr, d) j = true.
Proof.
  intros. apply andb_true_intro. split; apply inside_spec; lia.
Qed.

Lemma filter_length_In {A : Type} (f : A -> bool) (l : list A) (x : A) :
  In x l -> f x = true -> 1 <= List.length (filter f l).
Proof.
  intros Hin Hf. assert (H : In x (filter f l)) by (apply filter_In; auto).
  destruct (filter f l); [contradiction | cbn [List.length]; lia].
Qed.

Lemma filter_none {A : Type} (f : A -> bool) (l : list A) :
  (forall x, In x l -> f x = false) -> filter f l = [].
Proof.
  induction l as [|a l IH]; intros H; [reflexivity|].
  cbn [filter]. rewrite (H a) by now left. apply IH. intros x Hx. apply H. now right.
Qed.

Lemma driver_disjoint (t : list nat) (pl pr : nat) (d : Z) (stack : list frame)
    (s : frame) (k : nat) :
  driver_inv v t ((pl, pr, d) :: stack) -> In s stack -> pl <= k -> k <= pr ->
  inside s k = false.
Proof.
  intros (_ & Hd & _) Hin H1 H2. specialize (Hd k). cbn [filter] in Hd.
  rewrite (proj2 (inside_spec pl pr d k)) in Hd by lia. cbn [List.length] in Hd.
  destruct (inside s k) eqn:E; [|reflexivity].
  pose proof (filter_length_In (fun s => inside s k) stack s Hin E). lia.
Qed.

(** The open segment at the head is replaced by segments inside it, after a
    step that kept to it and put in order every pair of its cells that is no
    longer together in a segment. *)
Lemma driver_refine (t t' : list nat) (pl pr : nat) (d : Z)
    (news stack : list frame) :
  driver_inv v t ((pl, pr, d) :: stack) ->
  rearranges t t' pl (S pr) ->
  Forall (fun s => pl <= fst (fst s) /\ fst (fst s) <= snd (fst s) /\
                   snd (fst s) <= pr) news ->
  (forall k, List.length (filter (fun s => inside s k) news) <= 1) ->
  (forall i j, pl <= i -> i < j -> j <= pr ->
     (forall s, In s news -> inside s i && inside s j = false) ->
     (K t' i <= K t' j)%Z) ->
  driver_inv v t' (news ++ stack).
Proof.
  intros Hinv R Hnews Hone Hord.
  pose proof Hinv as (Hr & Hd & Hs).
  pose proof (rearranges_length _ _ _ _ R) as L.
  inversion Hr as [|? ? Hhead Hst]; subst.
  unfold in_range in Hhead. cbn [fst snd] in Hhead.
  split; [|split].
  - apply Forall_app. split.
    + revert Hnews. apply Forall_impl. intros [[a b] e]. unfold in_range.
      cbn [fst snd]. lia.
    + now apply (NpyFacts.in_range_length t).
  - intros k. rewrite filter_app, length_app.
    destruct (Nat.lt_ge_cases k pl) as [Hk|Hk];
      [|destruct (Nat.lt_ge_cases pr k) as [Hk'|Hk']].
    + rewrite (filter_none (fun s => inside s k) news).
      * specialize (Hd k). cbn [filter] in Hd.
        rewrite inside_out in Hd by lia. exact Hd.
      * intros [[a b] e] Hin. rewrite Forall_forall in Hnews.
        specialize (Hnews _ Hin). cbn [fst snd] in Hnews. apply inside_out. lia.
    + rewrite (filter_none (fun s => inside s k) news).
      * specialize (Hd k). cbn [filter] in Hd.
        rewrite inside_out in Hd by lia. exact Hd.
      * intros [[a b] e] Hin. rewrite Forall_forall in Hnews.
        specialize (Hnews _ Hin). cbn [fst snd] in Hnews. apply inside_out. lia.
    + rewrite (filter_none (fun s => inside s k) stack).
      * cbn [List.length]. rewrite Nat.add_0_r. apply Hone.
      * intros s Hin. now apply (driver_disjoint t pl pr d stack).
  - intros i j Hij Hj Hno. rewrite L in Hj.
    assert (Hcell : forall q, pl <= q -> q <= pr ->
              exists q', pl <= q' /\ q' <= pr /\ K t' q = K t q').
    { intros q H1 H2. destruct (rearranges_key v _ _ _ _ q R H1) as (q' & ? & ? & E);
        [lia|]. exists q'. splits; lia. }
    assert (Hout : forall q, q < pl \/ pr < q -> K t' q = K t q).
    { intros q Hq. apply (rearranges_key_outside v _ _ pl (S pr)); [assumption | lia]. }
    destruct (Nat.lt_ge_cases i pl) as [Hi|Hi];
      [|destruct (Nat.lt_ge_cases pr i) as [Hi'|Hi']].
    + destruct (Nat.lt_ge_cases j pl) as [Hj1|Hj1];
        [|destruct (Nat.lt_ge_cases pr j) as [Hj2|Hj2]].
      * rewrite !Hout by lia. apply Hs; try assumption.
        intros s [<-|Hin]; [now rewrite inside_out by lia|].
        apply Hno, in_or_app. now right.
      * rewrite !Hout by lia. apply Hs; try assumption.
        intros s [<-|Hin]; [now rewrite inside_out by lia|].
        apply Hno, in_or_app. now right.
      * destruct (Hcell j Hj1 Hj2) as (j' & J1 & J2 & ->). rewrite Hout by lia.
        apply Hs; try lia.
        intros s [<-|Hin]; [now rewrite inside_out by lia|].
        rewrite (driver_disjoint t pl pr d stack s j') by assumption.
        apply andb_false_r.
    + rewrite !Hout by lia. apply Hs; try assumption.
      intros s [<-|Hin]; [now rewrite inside_out by lia|].
      apply Hno, in_or_app. now right.
    + destruct (Nat.lt_ge_cases pr j) as [Hj2|Hj2].
      * destruct (Hcell i Hi Hi') as (i' & I1 & I2 & ->). rewrite (Hout j) by lia.
        apply Hs; try lia.
        intros s [<-|Hin]; [rewrite (inside_out pl pr d j) by lia; apply andb_false_r|].
        now rewrite (driver_disjoint t pl pr d stack s i').
      * apply Hord; try lia. intros s Hin. apply Hno, in_or_app. now left.
Qed.

(** A segment sorted as a whole is retired. *)
Lemma driver_retire (t t' : list nat) (pl pr : nat) (d : Z) (stack : list frame) :
  driver_inv v t ((pl, pr, d) :: stack) ->
  rearranges t t' pl (S pr) -> sorted_range v t' pl (S pr) ->
  driver_inv v t' stack.
Proof.
  intros Hinv R Hs. apply (driver_refine t t' pl pr d [] stack); try assumption.
  - constructor.
  - intros k. cbn [filter List.length]. lia.
  - intros i j H1 H2 H3 _. apply Hs; lia.
Qed.

(** A partitioned segment leaves its two sides open. *)
Lemma driver_split (t t' : list nat) (pl pr pi : nat) (d d' : Z)
    (stack : list frame) (first_left : bool) :
  driver_inv v t ((pl, pr, d) :: stack) ->
  rearranges t t' pl (S pr) -> pl < pi -> pi < pr ->
  (forall k, pl <= k -> k < pi -> (K t' k <= K t' pi)%Z) ->
  (forall k, pi < k -> k <= pr -> (K t' pi <= K t' k)%Z) ->
  driver_inv v t'
    ((if first_left then [(pl, pi - 1, d'); (S pi, pr, d')]
      else [(S pi, pr, d'); (pl, pi - 1, d')]) ++ stack).
Proof.
  intros Hinv R H1 H2 Hlo Hhi.
  apply (driver_refine t t' pl pr d); try assumption.
  - destruct first_left; repeat constructor; cbn [fst snd]; lia.
  - intros k.
    destruct (inside (pl, pi - 1, d') k) eqn:E1;
      destruct (inside (S pi, pr, d') k) eqn:E2;
      destruct first_left; cbn [filter]; rewrite ?E1, ?E2; cbn [List.length];
      try lia; apply inside_spec in E1, E2; lia.
  - intros i j Hi Hij Hj Hno.
    destruct (Nat.lt_ge_cases j pi) as [Hjp|Hjp].
    + specialize (Hno (pl, pi - 1, d')).
      rewrite inside_both in Hno by lia.
      assert (true = false); [|discriminate].
      apply Hno. destruct first_left; cbn [In]; auto.
    + destruct (Nat.lt_ge_cases pi i) as [Hip|Hip].
      * specialize (Hno (S pi, pr, d')).
        rewrite inside_both in Hno by lia.
        assert (true = false); [|discriminate].
        apply Hno. destruct first_left; cbn [In]; auto.
      * apply Z.le_trans with (K t' pi).
        -- destruct (Nat.eq_dec i pi) as [->|Hne]; [apply Z.le_refl | apply Hlo; lia].
        -- destruct (Nat.eq_dec j pi) as [->|Hne]; [apply Z.le_refl | apply Hhi; lia].
Qed.

Lemma run_sorted (fuel : nat) :
  forall (at_ : pc) (t : list nat) (pl pr : nat) (cdepth : Z)
         (stack : list frame) (t' : list nat),
    driver_inv v t ((pl, pr, cdepth) :: stack) ->
    run v fuel at_ t pl pr cdepth stack = Some t' ->
    driver_inv v t' [].
Proof.
  induction fuel as [|f IH]; intros at_ t pl pr cdepth stack t' Hinv Hrun;
    [discriminate|].
  assert (Hpop : forall t1, driver_inv v t1 stack ->
            match stack with
            | [] => Some t1
            | (pl', pr', d) :: rest => run v f Head t1 pl' pr' d rest
            end = Some t' -> driver_inv v t' []).
  { intros t1 H1 E. destruct stack as [|[[pl' pr'] d] rest].
    - now injection E as <-.
    - eapply IH; eassumption. }
  pose proof Hinv as (Hr & _ & _).
  inversion Hr as [|? ? Hhead _]; subst.
  unfold in_range in Hhead. cbn [fst snd] in Hhead.
  cbn [run] in Hrun. destruct at_.
  - destruct (cdepth <? 0)%Z.
    + destruct (aheapsort_sorts v t pl (pr - pl + 1)) as [S1 R1]; [lia|].
      replace (pl + (pr - pl + 1)) with (S pr) in * by lia.
      eapply Hpop; [|exact Hrun].
      now apply (driver_retire t _ pl pr cdepth stack).
    + eapply IH; eassumption.
  - destruct (Nat.ltb_spec SMALL_QUICKSORT (pr - pl)) as [Hbig|Hsmall].
    + unfold SMALL_QUICKSORT in Hbig.
      destruct (partition_sorts v t pl pr) as (R1 & P1 & P2 & P3 & P4); try lia.
      destruct (partition v t pl pr) as [t1 pi]. cbn [fst snd] in *.
      destruct (pi - pl <? pr - pi).
      * eapply IH; [|exact Hrun].
        exact (driver_split t t1 pl pr pi cdepth (cdepth - 1)%Z stack true
                 Hinv R1 P1 P2 P3 P4).
      * eapply IH; [|exact Hrun].
        exact (driver_split t t1 pl pr pi cdepth (cdepth - 1)%Z stack false
                 Hinv R1 P1 P2 P3 P4).
    + destruct (insertion_sorts v t pl pr) as [S1 R1]; try lia.
      eapply Hpop; [|exact Hrun].
      now apply (driver_retire t _ pl pr cdepth stack).
Qed.

End DriverSorts.

End NpySorts.

(** [aquicksort] returns the positions in non-decreasing order of their keys. *)
Lemma aquicksort_sorted (v : list Z) :
  sorted_range v (Npy.aquicksort v) 0 (List.length v).
Proof.
  unfold Npy.aquicksort.
  destruct (NpyFacts.run_enough v) as (t' & E & P). rewrite E.
  destruct v as [|x v']; [intros i j _ _ Hj; cbn [List.length] in Hj; lia|].
  set (v := x :: v') in *.
  assert (Hinv : driver_inv v (seq 0 (List.length v))
                   [(0, List.length v - 1, Npy.depth_limit (List.length v))]).
  { split; [|split].
    - constructor; [|constructor]. unfold Npy.in_range. cbn [fst snd].
      rewrite length_seq. unfold v. cbn [List.length]. lia.
    - intros k. cbn [filter]. destruct (inside _ k); cbn [List.length]; lia.
    - intros i j Hij Hj Hno. rewrite length_seq in Hj.
      specialize (Hno _ (or_introl eq_refl)).
      rewrite NpySorts.inside_both in Hno by lia. discriminate. }
  pose proof (NpySorts.run_sorted v _ _ _ _ _ _ _ _ Hinv E) as (_ & _ & Hs).
  apply Permutation_length in P. rewrite length_seq in P.
  intros i j _ Hij Hj. destruct (Nat.eq_dec i j) as [->|Hne]; [apply Z.le_refl|].
  apply Hs; try lia. intros s [].
Qed.

Lemma sorted_by_index {A : Type} (R : A -> A -> Prop) (d : A) (l : list A) :
  (forall i j, i < j -> j < List.length l -> R (nth i l d) (nth j l d)) ->
  StronglySorted R l.
Proof.
  induction l as [|a l IH]; intros H; constructor.
  - apply IH. intros i j Hij Hj. apply (H (S i) (S j)); cbn [List.length]; lia.
  - rewrite Forall_forall. intros y Hy.
    destruct (In_nth _ _ d Hy) as (k & Hk & <-).
    apply (H 0 (S k)); cbn [List.length]; lia.
Qed.

Lemma StronglySorted_rev {A : Type} (R : A -> A -> Prop) (l : list A) :
  StronglySorted R l -> StronglySorted (fun a b => R b a) (rev l).
Proof.
  induction 1 as [|a l Hs IH Hall]; cbn [rev]; [constructor|].
  assert (G : forall l1, StronglySorted (fun a b => R b a) l1 ->
                Forall (fun y => R a y) l1 ->
                StronglySorted (fun a b => R b a) (l1 ++ [a])).
  { induction 1 as [|b l1 Hs1 IH1 Hall1]; intros Hf; cbn [app].
    - repeat constructor.
    - inversion Hf as [|? ? Hab Hf']; subst. constructor; [now apply IH1|].
      apply Forall_app. split; [assumption | now repeat constructor]. }
  apply G; [assumption|].
  rewrite Forall_forall in *. intros y Hy. apply Hall. now apply in_rev.
Qed.

(** [nargsort] yields the positions in non-increasing order of the column,
    whatever its length. *)
Lemma nargsort_desc_sorted (items : list Z) :
  StronglySorted (desc_keys items) (Pandas.nargsort_desc items).
Proof.
  unfold Pandas.nargsort_desc. set (n := List.length items).
  set (a := Npy.aquicksort (rev items)).
  pose proof (NpyFacts.aquicksort_perm (rev items)) as Hp.
  pose proof (aquicksort_sorted (rev items)) as Hs.
  rewrite length_rev in Hp, Hs. fold n a in Hp, Hs.
  assert (Hin : forall p, In p a -> p < n).
  { intros p H. apply (Permutation_in _ Hp), in_seq in H. lia. }
  assert (La : List.length a = n).
  { rewrite (Permutation_length Hp). apply length_seq. }
  apply (StronglySorted_rev (fun x y => desc_keys items y x)).
  apply StronglySorted_map.
  apply StronglySorted_weaken
    with (R := fun x y => (Npy.key (rev items) x <= Npy.key (rev items) y)%Z).
  - intros x y Hx Hy. apply Hin in Hx, Hy. unfold desc_keys, Npy.key.
    rewrite !(rev_nth (seq 0 n)) by (rewrite length_seq; lia).
    rewrite length_seq, !seq_nth by lia.
    rewrite !rev_nth by (fold n; lia). fold n.
    replace (0 + (n - S x)) with (n - S x) by lia.
    replace (0 + (n - S y)) with (n - S y) by lia. auto.
  - apply (sorted_by_index _ 0). intros i j Hij Hj. rewrite La in Hj.
    apply (Hs i j); lia.
Qed.

Lemma take_sorted_keys {A : Type} (by_ : A -> Z) (df : list A) (indexer : list nat) :
  StronglySorted (desc_keys (map by_ df)) indexer ->
  StronglySorted (fun a b => (by_ b <= by_ a)%Z) (Pandas.take df indexer).
Proof.
  induction 1 as [|i l Hs IH Hall].
  - constructor.
  - unfold Pandas.take. cbn [flat_map].
    destruct (nth_error df i) as [x|] eqn:E; [|exact IH].
    cbn [app]. constructor; [exact IH|].
    rewrite Forall_forall in *. intros y Hy.
    apply take_In_idx in Hy. destruct Hy as (j & Hj & Ey).
    specialize (Hall j Hj). unfold desc_keys in Hall.
    rewrite (key_nth by_ _ _ _ E), (key_nth by_ _ _ _ Ey) in Hall. exact Hall.
Qed.

(** [sort_values(by=..., ascending=False)] returns the rows in non-increasing
    order of the column. *)
Lemma sort_values_desc_sorted {A : Type} (by_ : A -> Z) (df : list A) :
  StronglySorted (fun a b => (by_ b <= by_ a)%Z) (Pandas.sort_values_desc by_ df).
Proof.
  unfold Pandas.sort_values_desc. apply take_sorted_keys, nargsort_desc_sorted.
Qed.

Lemma search_place_sorted (place_df : list PlaceDf.row) (keyword : string)
    (hits : list hit) :
  search_place place_df keyword = Some hits ->
  StronglySorted (fun a b => (Relevance b <= Relevance a)%Z) hits.
Proof.
  rewrite search_place_unfold.
  destruct (Re.compile keyword) as [pat|]; [|discriminate].
  destruct (Pandas.object_dtype _); [|discriminate].
  destruct (matched place_df pat) as [|r rs].
  - intros H. injection H as <-. constructor.
  - intros H. injection H as <-. apply sort_values_desc_sorted.
Qed.

(** X18: whatever the keyword and however many places match, the hits that
    [search_place] returns are in non-increasing order of relevance: no hit
    is followed, at any distance, by a hit with a larger score. *)
Theorem X18_search_place_ranked (place_df : list PlaceDf.row) (keyword : string)
    (hits : list hit) :
  search_place place_df keyword = Some hits ->
  StronglySorted (fun a b => (Relevance b <= Relevance a)%Z) hits.
Proof.
  rewrite search_place_unfold.
  destruct (Re.compile keyword) as [pat|]; [|discriminate].
  destruct (Pandas.object_dtype _); [|discriminate].
  destruct (matched place_df pat) as [|r rs].
  - intros H. injection H as <-. constructor.
  - intros H. injection H as <-. apply sort_values_desc_sorted.
Qed.

Lemma X18_search_place_ranked_witness :
  exists hits,
    search_place sample_places "borobudur" = Some hits /\
    map Relevance hits = [3; 2]%Z /\
    StronglySorted (fun a b => (Relevance b <= Relevance a)%Z) hits.
Proof.
  eexists. split; [vm_compute; reflexivity|]. split; [reflexivity|].
  apply (X18_search_place_ranked sample_places "borobudur").
  vm_compute. reflexivity.
Defined.

(** C6 (as amended): the sort orders the hits by their score and by nothing
    else.  The hits are the matched rows, each once; no hit stands before one
    with a larger score, so of two hits with different scores the one with
    the larger score comes first.  For hits with equal scores the code fixes
    no order: [sort_values] is called without [kind] and without a second
    key, and the default sort is not stable. *)
Theorem C6_scores_decide_the_order (place_df : list PlaceDf.row)
    (keyword : string) (pat : list Re.atom) (hits : list hit) :
  Re.compile keyword = Some pat ->
  search_place place_df keyword = Some hits ->
  Permutation (map place hits) (matched place_df pat) /\
  (forall h1 h2,
     comes_before h1 h2 hits -> (Relevance h2 <= Relevance h1)%Z) /\
  (forall h1 h2,
     In h1 hits -> In h2 hits -> (Relevance h2 < Relevance h1)%Z ->
     comes_before h1 h2 hits /\ ~ comes_before h2 h1 hits).
Proof.
  intros Hc Hs.
  pose proof (search_place_sorted _ _ _ Hs) as Hsorted.
  pose proof (search_place_described _ _ _ Hs) as Hd.
  destruct (search_place_returns place_df _ _ Hc Hd) as (hits' & Hs' & _ & Hp).
  assert (hits' = hits) by congruence. subst hits'.
  split; [exact Hp|]. split.
  - intros h1 h2 Hb.
    exact (comes_before_sorted _ _ _ _ Hsorted Hb).
  - intros h1 h2 H1 H2 Hlt.
    assert (Hno : ~ comes_before h2 h1 hits).
    { intros Hb. pose proof (comes_before_sorted _ _ _ _ Hsorted Hb) as Hle.
      cbv beta in Hle. lia. }
    split; [|exact Hno].
    destruct (comes_before_total h1 h2 hits H1 H2) as [Hb|Hb];
      [intros ->; lia | exact Hb | contradiction].
Qed.

Lemma C6_scores_decide_the_order_witness :
  comes_before
    (mk_hit (PlaceDf.mk 1 "Borobudur Temple"
               (Some "Visit Borobudur for sunrise"%string)) 3)
    (mk_hit (PlaceDf.mk 3 "Hutan Pinus 7"
               (Some "dekat borobudur. BOROBUDUR!"%string)) 2)
    [ mk_hit (PlaceDf.mk 1 "Borobudur Temple"
                (Some "Visit Borobudur for sunrise"%string)) 3;
      mk_hit (PlaceDf.mk 3 "Hutan Pinus 7"
                (Some "dekat borobudur. BOROBUDUR!"%string)) 2 ].
Proof.
  apply (proj2 (proj2 (C6_scores_decide_the_order sample_places "Borobudur"
                         (literal "Borobudur") _
                         ltac:(reflexivity) ltac:(vm_compute; reflexivity)))).
  - now left.
  - right. now left.
  - cbn [Relevance]. lia.
Defined.
